(** * Dynamic mode decomposition utilities (src/utils.py)

    A shallow embedding of [hankel], [dmd], [solve_regression] and [pinv].

    Dense tensors are modelled the way TensorFlow stores them: a shape and a
    row-major buffer.  Every TensorFlow operation the program calls is given
    by its output shape and its element map.  The three LAPACK-backed
    primitives the program delegates to ([tf.linalg.svd], [tf.linalg.eig],
    [tf.linalg.inv]) are a parameter of the development (record [backend]);
    scalar arithmetic is a parameter too (record [scalars]), and the
    algebraic results are stated for scalars that obey the laws of exact
    arithmetic (record [scalar_laws]). *)

From Stdlib Require Import String Arith Lia ZArith Bool QArith Qcanon Ring Field Lqa.
From Stdlib Require Import List.
Import ListNotations.

Set Implicit Arguments.

#[local] Close Scope Q_scope.
#[local] Close Scope Qc_scope.
#[local] Open Scope nat_scope.

(** ** Errors *)

Inductive result (A : Type) : Type :=
| Ok (a : A)
| Err (msg : string).

Arguments Ok {A} a.
Arguments Err {A} msg.

Definition bind {A B : Type} (r : result A) (k : A -> result B) : result B :=
  match r with
  | Ok a => k a
  | Err msg => Err msg
  end.

Notation "x <- c1 ;; c2" := (bind c1 (fun x => c2))
  (at level 61, c1 at next level, right associativity).
Notation "' pat <- c1 ;; c2" := (bind c1 (fun x => match x with pat => c2 end))
  (at level 61, pat pattern, c1 at next level, right associativity).

Definition is_ok {A : Type} (r : result A) : bool :=
  match r with Ok _ => true | Err _ => false end.

(** ** Dense tensors *)

Record tensor (A : Type) : Type := mkT { shape : list nat; data : list A }.

Definition numel (sh : list nat) : nat := fold_right Nat.mul 1 sh.

(** Row-major offset of a multi-index, and its inverse. *)
Fixpoint ravel (sh idx : list nat) : nat :=
  match sh, idx with
  | _ :: sh', i :: idx' => i * numel sh' + ravel sh' idx'
  | _, _ => 0
  end.

Fixpoint unravel (sh : list nat) (off : nat) : list nat :=
  match sh with
  | [] => []
  | _ :: sh' => (off / numel sh') :: unravel sh' (off mod numel sh')
  end.

Fixpoint in_bounds (sh idx : list nat) : bool :=
  match sh, idx with
  | [], [] => true
  | d :: sh', i :: idx' => (i <? d) && in_bounds sh' idx'
  | _, _ => false
  end.

Definition wf {A : Type} (t : tensor A) : Prop :=
  length (data t) = numel (shape t).

(** Reading at an index; [d] stands for a read outside the shape, which no
    index in bounds ever makes. *)
Definition get {A : Type} (d : A) (t : tensor A) (idx : list nat) : A :=
  if in_bounds (shape t) idx then nth (ravel (shape t) idx) (data t) d else d.

Definition tabulate {A : Type} (sh : list nat) (f : list nat -> A) : tensor A :=
  mkT sh (map (fun off => f (unravel sh off)) (seq 0 (numel sh))).

Definition tmap {A B : Type} (f : A -> B) (t : tensor A) : tensor B :=
  mkT (shape t) (map f (data t)).

(** Replace / read one component of an index or a shape. *)
Fixpoint set_nth (k : nat) (v : nat) (l : list nat) : list nat :=
  match l, k with
  | [], _ => []
  | _ :: l', 0 => v :: l'
  | x :: l', S k' => x :: set_nth k' v l'
  end.

Fixpoint shape_eqb (sh1 sh2 : list nat) : bool :=
  match sh1, sh2 with
  | [], [] => true
  | a :: sh1', b :: sh2' => (a =? b) && shape_eqb sh1' sh2'
  | _, _ => false
  end.

(** ** TensorFlow operations *)

Section Ops.

Variable A : Type.
Variable dflt : A.

(** [tf.reshape]: one dimension may be [-1] and is then inferred. *)
Definition infer_dims (total : nat) (dims : list Z) : result (list nat) :=
  if existsb (fun z => (z <? -1)%Z) dims then
    Err "reshape: negative dimension"
  else
    let known := numel (map Z.to_nat (filter (fun z => negb (z =? -1)%Z) dims)) in
    match length (filter (fun z => (z =? -1)%Z) dims) with
    | 0 => Ok (map Z.to_nat dims)
    | 1 =>
        if known =? 0 then Err "reshape: cannot infer the missing dimension"
        else Ok (map (fun z => if (z =? -1)%Z then total / known
                               else Z.to_nat z) dims)
    | _ => Err "reshape: only one dimension can be inferred"
    end.

Definition tf_reshape (t : tensor A) (dims : list Z) : result (tensor A) :=
  sh <- infer_dims (numel (shape t)) dims ;;
  if numel sh =? numel (shape t) then Ok (mkT sh (data t))
  else Err "reshape: number of elements does not match".

(** Python slice bounds on an axis of length [d]: [None] is the open end, a
    negative bound counts from the end, everything is clipped to [0, d]. *)
Definition clip (d : nat) (z : Z) : nat :=
  if (z <? 0)%Z then Z.to_nat (Z.of_nat d + z) else Nat.min (Z.to_nat z) d.

Definition slice_start (d : nat) (lo : option Z) : nat :=
  match lo with None => 0 | Some z => clip d z end.

Definition slice_stop (d : nat) (hi : option Z) : nat :=
  match hi with None => d | Some z => clip d z end.

(** [t[:, ..., lo:hi]] with the range on axis [ax] and full ranges before. *)
Definition slice_axis (ax : nat) (lo hi : option Z) (t : tensor A)
  : result (tensor A) :=
  if ax <? length (shape t) then
    let d := nth ax (shape t) 0 in
    let start := slice_start d lo in
    let stop := slice_stop d hi in
    Ok (tabulate (set_nth ax (stop - start) (shape t))
          (fun idx => get dflt t (set_nth ax (nth ax idx 0 + start) idx)))
  else Err "slice: too many indices".

(** [t[..., lo:hi]]: the range is on the last axis. *)
Definition slice_last (lo hi : option Z) (t : tensor A) : result (tensor A) :=
  match length (shape t) with
  | 0 => Err "slice: too many indices"
  | S k => slice_axis k lo hi t
  end.

(** [tf.newaxis] at position [ax]: the buffer is unchanged. *)
Definition expand_dims (ax : nat) (t : tensor A) : tensor A :=
  mkT (firstn ax (shape t) ++ 1 :: skipn ax (shape t)) (data t).

(** [tf.concat([t1, t2], axis=ax)]. *)
Definition tf_concat (ax : nat) (t1 t2 : tensor A) : result (tensor A) :=
  let d1 := nth ax (shape t1) 0 in
  let d2 := nth ax (shape t2) 0 in
  if negb (ax <? length (shape t1)) then Err "concat: axis out of range"
  else if shape_eqb (set_nth ax 0 (shape t1)) (set_nth ax 0 (shape t2))
  then Ok (tabulate (set_nth ax (d1 + d2) (shape t1))
             (fun idx =>
                let i := nth ax idx 0 in
                if i <? d1 then get dflt t1 idx
                else get dflt t2 (set_nth ax (i - d1) idx)))
  else Err "concat: dimensions of the inputs do not match".

(** [tf.transpose(t, perm)]: axis [k] of the result is axis [perm[k]] of [t]. *)
Fixpoint index_of (a : nat) (l : list nat) : nat :=
  match l with
  | [] => 0
  | x :: l' => if x =? a then 0 else S (index_of a l')
  end.

Definition is_perm (perm : list nat) : bool :=
  forallb (fun a => existsb (Nat.eqb a) perm) (seq 0 (length perm)).

Definition tf_transpose (t : tensor A) (perm : list nat) : result (tensor A) :=
  if (length perm =? length (shape t)) && is_perm perm then
    Ok (tabulate (map (fun a => nth a (shape t) 0) perm)
          (fun idx =>
             get dflt t (map (fun a => nth (index_of a perm) idx 0)
                           (seq 0 (length perm)))))
  else Err "transpose: perm is not a permutation of the axes".

(** NumPy broadcasting of two shapes, aligned on the trailing axes. *)
Fixpoint bshape_rev (r1 r2 : list nat) : option (list nat) :=
  match r1, r2 with
  | [], r => Some r
  | r, [] => Some r
  | a :: r1', b :: r2' =>
      match bshape_rev r1' r2' with
      | None => None
      | Some r =>
          if a =? b then Some (a :: r)
          else if a =? 1 then Some (b :: r)
          else if b =? 1 then Some (a :: r)
          else None
      end
  end.

Definition bshape (sh1 sh2 : list nat) : option (list nat) :=
  option_map (@rev nat) (bshape_rev (rev sh1) (rev sh2)).

(** The index of an operand of shape [sh] that a result index reads. *)
Definition bproj (sh idx : list nat) : list nat :=
  map (fun di => if fst di =? 1 then 0 else snd di)
      (combine sh (skipn (length idx - length sh) idx)).

(** The last two axes of a shape, and the batch axes before them. *)
Definition split_last2 (sh : list nat) : option (list nat * nat * nat) :=
  match rev sh with
  | c :: r :: b => Some (rev b, r, c)
  | _ => None
  end.

(** [tf.linalg.matrix_transpose]. *)
Definition tf_matrix_transpose (t : tensor A) : result (tensor A) :=
  match split_last2 (shape t) with
  | Some (b, r, c) =>
      Ok (tabulate (b ++ [c; r])
            (fun idx =>
               get dflt t (firstn (length b) idx
                             ++ [nth (S (length b)) idx 0; nth (length b) idx 0])))
  | None => Err "matrix_transpose: rank must be at least 2"
  end.

(** [tf.while_loop(cond, body, loop_vars)].  [fuel] bounds the number of
    iterations; running out of it is reported as an error of its own. *)
Fixpoint while_loop (St : Type) (fuel : nat) (cond : St -> bool)
    (body : St -> result St) (s : St) : result St :=
  if cond s then
    match fuel with
    | 0 => Err "while_loop: out of fuel"
    | S fuel' => s' <- body s ;; while_loop fuel' cond body s'
    end
  else Ok s.

(** ** [hankel] (src/utils.py, lines 29-45)

    [K] is a Python integer.  [tf.TensorShape] rejects a negative dimension
    when the shape invariant of the loop is built (line 44); apart from
    that the invariant is only an annotation for the tracer.  The loop runs
    for [i = 1 .. L-K], so [L-K] iterations are enough fuel; its int32
    counter stays below [L + 2] and is an unbounded integer here. *)
Definition hankel_cond (L : nat) (K : Z) (st : Z * tensor A) : bool :=
  (fst st <=? Z.of_nat L - K)%Z.

Definition hankel_body (T : tensor A) (K : Z) (st : Z * tensor A)
  : result (Z * tensor A) :=
  let (i, t) := st in
  w <- slice_axis 1 (Some i) (Some (K + i)%Z) T ;;
  t' <- tf_concat 1 t (expand_dims 1 w) ;;
  Ok ((i + 1)%Z, t').

Definition hankel (T : tensor A) (K : Z) : result (tensor A) :=
  match shape T with
  | _ :: L :: _ =>
      let i := 1%Z in
      t0 <- slice_axis 1 None (Some K) T ;;
      let t := expand_dims 1 t0 in
      if (K <? 0)%Z then Err "TensorShape: dimension must be >= 0"
      else
        st <- while_loop (Z.to_nat (Z.of_nat L - K))
                (hankel_cond L K) (hankel_body T K) (i, t) ;;
        Ok (snd st)
  | _ => Err "shape index out of range"
  end.

End Ops.

Arguments while_loop {St} fuel cond body s.

Section Ops2.

Variables A B C : Type.
Variable dA : A.
Variable dB : B.

(** An elementwise binary operation with broadcasting. *)
Definition tf_binop (f : A -> B -> C) (t1 : tensor A) (t2 : tensor B)
  : result (tensor C) :=
  match bshape (shape t1) (shape t2) with
  | Some sh =>
      Ok (tabulate sh (fun idx => f (get dA t1 (bproj (shape t1) idx))
                                    (get dB t2 (bproj (shape t2) idx))))
  | None => Err "incompatible shapes for broadcasting"
  end.

End Ops2.

(** ** Scalars and the linear-algebra backend *)

(** [R] is the real dtype of the singular values, [C] the dtype of the data.
    [rlit] reads a decimal literal, [cast] is [tf.cast] from [R] to [C]. *)
Record scalars : Type := mkScalars {
  R : Type;
  C : Type;
  r0 : R;
  r1 : R;
  rdiv : R -> R -> R;
  rgtb : R -> R -> bool;
  rlit : Q -> R;
  cast : R -> C;
  c0 : C;
  c1 : C;
  cadd : C -> C -> C;
  cmul : C -> C -> C;
  csub : C -> C -> C;
  copp : C -> C;
  cdiv : C -> C -> C;
  cconj : C -> C;
  csqrt : C -> C
}.

(** [tf.linalg.svd] returns [(s, u, v)], [tf.linalg.eig] returns
    [(eigenvalues, right eigenvectors)], [tf.linalg.inv] the inverse.  Each
    may raise. *)
Record backend (Sc : scalars) : Type := mkBackend {
  svd : tensor (C Sc) -> result (tensor (R Sc) * tensor (C Sc) * tensor (C Sc));
  eig : tensor (C Sc) -> result (tensor (C Sc) * tensor (C Sc));
  inv : tensor (C Sc) -> result (tensor (C Sc))
}.

Section Program.

Variable Sc : scalars.
Variable B : backend Sc.

Local Abbreviation C := (C Sc).
Local Abbreviation R := (R Sc).

(** Sum of [f 0 .. f (n-1)]. *)
Definition csum (n : nat) (f : nat -> C) : C :=
  fold_right (fun l acc => cadd Sc (f l) acc) (c0 Sc) (seq 0 n).

(** [a @ b]: matrix product on the last two axes, batch axes broadcast. *)
Definition tf_matmul (a b : tensor C) : result (tensor C) :=
  match split_last2 (shape a), split_last2 (shape b) with
  | Some (ba, m, k), Some (bb, k', n) =>
      if k =? k' then
        match bshape ba bb with
        | Some bo =>
            Ok (tabulate (bo ++ [m; n])
                  (fun idx =>
                     let bi := firstn (length bo) idx in
                     let i := nth (length bo) idx 0 in
                     let j := nth (S (length bo)) idx 0 in
                     csum k (fun l =>
                       cmul Sc (get (c0 Sc) a (bproj ba bi ++ [i; l]))
                              (get (c0 Sc) b (bproj bb bi ++ [l; j])))))
        | None => Err "matmul: batch dimensions cannot be broadcast"
        end
      else Err "matmul: inner dimensions do not match"
  | _, _ => Err "matmul: rank must be at least 2"
  end.

(** [tf.linalg.adjoint]: conjugate transpose of the last two axes. *)
Definition tf_adjoint (a : tensor C) : result (tensor C) :=
  t <- tf_matrix_transpose (c0 Sc) a ;; Ok (tmap (cconj Sc) t).

(** [tf.reduce_sum(t, axis=-1)]. *)
Definition tf_reduce_sum_last (t : tensor C) : result (tensor C) :=
  match rev (shape t) with
  | d :: rb =>
      Ok (tabulate (rev rb)
            (fun idx => csum d (fun l => get (c0 Sc) t (idx ++ [l]))))
  | [] => Err "reduce_sum: axis out of range"
  end.

(** [tf.reduce_sum(tf.cast(s > eps, dtype=tf.int32))]. *)
Definition count_gt (s : tensor R) (eps : R) : nat :=
  length (filter (fun x => rgtb Sc x eps) (data s)).

Definition zint (n : nat) : option Z := Some (Z.of_nat n).

(** ** [dmd] (src/utils.py, lines 48-109)

    [K] is a Python integer and [eps] the tolerance (1e-5 when the caller
    leaves it out).  The body is cut at the places the comments of the
    source mark: design matrices, truncated SVD and reduced operator,
    eigenvectors and their lift, normalization. *)

(** Lines 73-86: the design matrices [X_resh] and [Y_resh]. *)
Definition dmd_design (trajectories : tensor C) (K : Z)
  : result (tensor C * tensor C) :=
  match shape trajectories with
  | [bs; n; m; _] =>
      let bs := Z.of_nat bs in
      let n := Z.of_nat n in
      let m := Z.of_nat m in
      t <- tf_reshape trajectories [bs; n; m ^ 2]%Z ;;
      t <- hankel (c0 Sc) t K ;;
      t <- tf_reshape t [bs; n - K + 1; K * (m ^ 2)]%Z ;;
      t <- tf_transpose (c0 Sc) t [2; 0; 1] ;;
      X <- slice_last (c0 Sc) None (Some (-1)%Z) t ;;
      Y <- slice_last (c0 Sc) (Some 1%Z) None t ;;
      X_resh <- tf_reshape X [K * (m ^ 2); bs * (n - K)]%Z ;;
      Y_resh <- tf_reshape Y [K * (m ^ 2); bs * (n - K)]%Z ;;
      Ok (X_resh, Y_resh)
  | _ => Err "dmd: expected a tensor of rank 4"
  end.

(** Lines 88-98: truncated SVD of [X_resh] and the reduced operator.
    Returns [(u, v * lmbd_inv, T_tilda)]. *)
Definition dmd_reduced (X_resh Y_resh : tensor C) (eps : R)
  : result (tensor C * tensor C * tensor C) :=
  '(lmbd, u, v) <- svd B X_resh ;;
  let ind := count_gt lmbd eps in
  lmbd <- slice_axis (r0 Sc) 0 None (zint ind) lmbd ;;
  let lmbd_inv := tmap (rdiv Sc (r1 Sc)) lmbd in
  let lmbd_inv := tmap (cast Sc) lmbd_inv in
  u <- slice_axis (c0 Sc) 1 None (zint ind) u ;;
  v <- slice_axis (c0 Sc) 1 None (zint ind) v ;;
  uh <- tf_adjoint u ;;
  uhY <- tf_matmul uh Y_resh ;;
  vl <- tf_binop (c0 Sc) (c0 Sc) (cmul Sc) v lmbd_inv ;;
  T_tilda <- tf_matmul uhY vl ;;
  Ok (u, vl, T_tilda).

(** Lines 100-103, from the eigenvectors [right_] of [T_tilda]: the left
    eigenvectors and the lift of both to the full space. *)
Definition dmd_lift (Y_resh u vl right_ : tensor C)
  : result (tensor C * tensor C) :=
  ri <- inv B right_ ;;
  left_ <- tf_adjoint ri ;;
  Yvl <- tf_matmul Y_resh vl ;;
  right_ <- tf_matmul Yvl right_ ;;
  left_ <- tf_matmul u left_ ;;
  Ok (right_, left_).

(** Lines 88-103.  Returns [(eig_vals, right, left)]. *)
Definition dmd_modes (X_resh Y_resh : tensor C) (eps : R)
  : result (tensor C * tensor C * tensor C) :=
  '(u, vl, T_tilda) <- dmd_reduced X_resh Y_resh eps ;;
  '(eig_vals, right_) <- eig B T_tilda ;;
  '(right_, left_) <- dmd_lift Y_resh u vl right_ ;;
  Ok (eig_vals, right_, left_).

(** Lines 104-108: the per-mode norm [sqrt(sum_f conj(left[f,j]) * right[f,j])]. *)
Definition dmd_norm (right_ left_ : tensor C) : result (tensor C) :=
  lh <- tf_adjoint left_ ;;
  rt <- tf_matrix_transpose (c0 Sc) right_ ;;
  norm <- tf_binop (c0 Sc) (c0 Sc) (cmul Sc) lh rt ;;
  norm <- tf_reduce_sum_last norm ;;
  Ok (tmap (csqrt Sc) norm).

Definition dmd_normalize (right_ left_ : tensor C)
  : result (tensor C * tensor C) :=
  norm <- dmd_norm right_ left_ ;;
  right_ <- tf_binop (c0 Sc) (c0 Sc) (cdiv Sc) right_ norm ;;
  left_ <- tf_binop (c0 Sc) (c0 Sc) (cdiv Sc) left_ (tmap (cconj Sc) norm) ;;
  Ok (right_, left_).

Definition dmd (trajectories : tensor C) (K : Z) (eps : R)
  : result (tensor C * tensor C * tensor C) :=
  '(X_resh, Y_resh) <- dmd_design trajectories K ;;
  '(eig_vals, right_, left_) <- dmd_modes X_resh Y_resh eps ;;
  '(right_, left_) <- dmd_normalize right_ left_ ;;
  Ok (eig_vals, right_, left_).

(** ** [solve_regression] (src/utils.py, lines 112-134) *)

Definition flatten_tail (X : tensor C) : result (tensor C) :=
  match shape X with
  | d :: _ => tf_reshape X [Z.of_nat d; (-1)%Z]
  | [] => Err "shape index out of range"
  end.

Definition regression_weights (s : tensor R) : result (tensor C) :=
  let ind := count_gt s (rlit Sc 1e-8%Q) in
  hi <- slice_axis (r0 Sc) 0 None (zint ind) s ;;
  lo <- slice_axis (r0 Sc) 0 (zint ind) None s ;;
  s_inv <- tf_concat (r0 Sc) 0 (tmap (rdiv Sc (r1 Sc)) hi) lo ;;
  Ok (tmap (cast Sc) s_inv).

Definition solve_regression (X Y : tensor C) : result (tensor C) :=
  X_resh <- flatten_tail X ;;
  Y_resh <- flatten_tail Y ;;
  '(s, u, v) <- svd B X_resh ;;
  s_inv <- regression_weights s ;;
  vs <- tf_binop (c0 Sc) (c0 Sc) (cmul Sc) v s_inv ;;
  uh <- tf_adjoint u ;;
  X_pinv <- tf_matmul vs uh ;;
  tf_matmul Y_resh X_pinv.

(** ** [pinv] (src/utils.py, lines 137-153) *)

Definition pinv (X : tensor C) (eps : R) : result (tensor C) :=
  '(s, u, v) <- svd B X ;;
  let ind := count_gt s eps in
  u <- slice_axis (c0 Sc) 1 None (zint ind) u ;;
  v <- slice_axis (c0 Sc) 1 None (zint ind) v ;;
  s <- slice_axis (r0 Sc) 0 None (zint ind) s ;;
  let s_inv := tmap (rdiv Sc (r1 Sc)) s in
  let s_inv := tmap (cast Sc) s_inv in
  vs <- tf_binop (c0 Sc) (c0 Sc) (cmul Sc) v s_inv ;;
  uh <- tf_adjoint u ;;
  tf_matmul vs uh.

End Program.

(** ** The laws of exact arithmetic

    The algebraic statements below are about scalars that form a
    commutative ring with an exact division and a conjugation compatible
    with it.  Floating-point numbers obey them only up to rounding. *)
Record scalar_laws (Sc : scalars) : Prop := mkLaws {
  law_ring : ring_theory (c0 Sc) (c1 Sc) (cadd Sc) (cmul Sc) (csub Sc)
               (copp Sc) eq;
  law_div : forall a b, cdiv Sc a b = cmul Sc a (cdiv Sc (c1 Sc) b);
  law_inv : forall b, b <> c0 Sc -> cmul Sc b (cdiv Sc (c1 Sc) b) = c1 Sc;
  law_conj_div : forall a b,
      cconj Sc (cdiv Sc a b) = cdiv Sc (cconj Sc a) (cconj Sc b);
  law_conj_conj : forall a, cconj Sc (cconj Sc a) = a
}.

(** [t] holds the first [j] windows of length [K] of [T]. *)
Definition windows {A : Type} (dflt : A) (T : tensor A) (bs K feat : nat)
    (j : nat) (t : tensor A) : Prop :=
  shape t = [bs; j; K; feat] /\
  forall b i k f, b < bs -> i < j -> k < K -> f < feat ->
    get dflt t [b; i; k; f] = get dflt T [b; i + k; f].

(** ** Matrices and vectors by their entries *)

Definition mat {A : Type} (m n : nat) (f : nat -> nat -> A) : tensor A :=
  tabulate [m; n] (fun idx => f (nth 0 idx 0) (nth 1 idx 0)).

Definition vec {A : Type} (n : nat) (f : nat -> A) : tensor A :=
  tabulate [n] (fun idx => f (nth 0 idx 0)).

Section SpecWords.

Variable Sc : scalars.
Variable B : backend Sc.

(** [diag(d)]: the square matrix with [d] on its diagonal. *)
Definition diag (d : tensor (C Sc)) : tensor (C Sc) :=
  let r := nth 0 (shape d) 0 in
  mat r r (fun i j => if i =? j then get (c0 Sc) d [i] else c0 Sc).

Definition recip (sigma : tensor (R Sc)) : tensor (C Sc) :=
  tmap (cast Sc) (tmap (rdiv Sc (r1 Sc)) sigma).

(** Specification, section 4.2: full SVD, rank [r] = number of singular
    values strictly greater than [eps], factors truncated to their first [r]
    entries / columns. *)
Definition truncated_factors (M : tensor (C Sc)) (eps : R Sc)
  : result (tensor (R Sc) * tensor (C Sc) * tensor (C Sc)) :=
  '(s, u, v) <- svd B M ;;
  let r := count_gt Sc s eps in
  sigma <- slice_axis (r0 Sc) 0 None (zint r) s ;;
  U <- slice_axis (c0 Sc) 1 None (zint r) u ;;
  V <- slice_axis (c0 Sc) 1 None (zint r) v ;;
  Ok (sigma, U, V).


(** Specification, section 4.2: [pseudoinverse(M, eps) = V . diag(1/sigma) . U^H]
    on the truncated factors. *)
Definition pseudoinverse (M : tensor (C Sc)) (eps : R Sc)
  : result (tensor (C Sc)) :=
  '(sigma, U, V) <- truncated_factors M eps ;;
  VD <- tf_matmul Sc V (diag (recip sigma)) ;;
  Uh <- tf_adjoint Sc U ;;
  tf_matmul Sc VD Uh.

(** The weights [solve_regression] puts on the singular directions, by the
    value of the singular value. *)
Definition regression_weight (x : R Sc) : C Sc :=
  if rgtb Sc x (rlit Sc 1e-8%Q) then cast Sc (rdiv Sc (r1 Sc) x)
  else cast Sc x.

(** [solve_regression] in those words: [Y . ((V . diag(w)) . U^H)]. *)
Definition regression_spec (X Y : tensor (C Sc)) : result (tensor (C Sc)) :=
  X_resh <- flatten_tail Sc X ;;
  Y_resh <- flatten_tail Sc Y ;;
  '(s, u, v) <- svd B X_resh ;;
  VW <- tf_matmul Sc v (diag (tmap regression_weight s)) ;;
  Uh <- tf_adjoint Sc u ;;
  P <- tf_matmul Sc VW Uh ;;
  tf_matmul Sc Y_resh P.

(** The pairing [sum_f conj(L[f,j]) * R[f,j]] of mode [j]. *)
Definition pairing (F : nat) (L R : tensor (C Sc)) (j : nat) : C Sc :=
  csum Sc F (fun f => cmul Sc (cconj Sc (get (c0 Sc) L [f; j]))
                              (get (c0 Sc) R [f; j])).

(** What the backend returns for a matrix of shape [(a, b)]: [p] singular
    values and [p] columns in each factor. *)
Definition svd_shapes (M : tensor (C Sc)) (a b : nat) : Prop :=
  forall s u v, svd B M = Ok (s, u, v) ->
    exists p, shape s = [p] /\ wf s /\ shape u = [a; p] /\ shape v = [b; p].

(** The singular values above [tol] come first, as they do in the
    descending order the backend returns. *)
Definition prefix_above (s : tensor (R Sc)) (tol : R Sc) : Prop :=
  forall i j, i <= j -> j < length (data s) ->
    rgtb Sc (nth j (data s) (r0 Sc)) tol = true ->
    rgtb Sc (nth i (data s) (r0 Sc)) tol = true.

(** [M] has a right inverse. *)
Definition invertible (M : tensor (C Sc)) : Prop :=
  exists r N, shape M = [r; r] /\ shape N = [r; r] /\
    tf_matmul Sc M N = Ok (mat r r (fun i j => if i =? j then c1 Sc else c0 Sc)).

End SpecWords.

(** ** Exact scalars: rationals and Gaussian rationals *)

Definition gq : Type := (Qc * Qc)%type.

Definition gre (q : Qc) : gq := (q, 0%Qc).
Definition gadd (x y : gq) : gq := ((fst x + fst y)%Qc, (snd x + snd y)%Qc).
Definition gopp (x : gq) : gq := ((- fst x)%Qc, (- snd x)%Qc).
Definition gsub (x y : gq) : gq := ((fst x - fst y)%Qc, (snd x - snd y)%Qc).
Definition gmul (x y : gq) : gq :=
  ((fst x * fst y - snd x * snd y)%Qc, (fst x * snd y + snd x * fst y)%Qc).
Definition gconj (x : gq) : gq := (fst x, (- snd x)%Qc).
Definition gnorm2 (x : gq) : Qc := (fst x * fst x + snd x * snd x)%Qc.
Definition gdiv (x y : gq) : gq :=
  (((fst x * fst y + snd x * snd y) / gnorm2 y)%Qc,
   ((snd x * fst y - fst x * snd y) / gnorm2 y)%Qc).

(** Square roots, exact on squares of rationals. *)
Definition qsqrt (q : Qc) : Qc :=
  Q2Qc (Z.sqrt (Qnum q) # Pos.sqrt (Qden q)).
Definition qgtb (x y : Qc) : bool :=
  match (x ?= y)%Qc with Gt => true | _ => false end.
Definition gsqrt (x : gq) : gq :=
  let m := qsqrt (gnorm2 x) in
  let p := qsqrt ((m + fst x) / Q2Qc 2)%Qc in
  let q := qsqrt ((m - fst x) / Q2Qc 2)%Qc in
  (p, if qgtb 0%Qc (snd x) then (- q)%Qc else q).

Definition QG : scalars :=
  mkScalars 0%Qc 1%Qc Qcdiv qgtb Q2Qc gre
    (gre 0%Qc) (gre 1%Qc) gadd gmul gsub gopp gdiv gconj gsqrt.


(** ** A reference backend for matrices whose factorizations are rational *)

Definition gq_is_zero (x : gq) : bool :=
  Qeq_bool (fst x) 0 && Qeq_bool (snd x) 0.

Definition kron (i j : nat) : gq := if i =? j then gre 1%Qc else gre 0%Qc.

(** Every matrix of the batch is diagonal, with a real, non-negative and
    descending diagonal. *)
Definition is_sorted_diag (X : tensor gq) (nb a b : nat) : bool :=
  forallb
    (fun off =>
       let idx := unravel (shape X) off in
       let bi := firstn nb idx in
       let i := nth nb idx 0 in
       let j := nth (S nb) idx 0 in
       let x := get (gre 0%Qc) X idx in
       if i =? j then
         Qeq_bool (snd x) 0 && Qle_bool 0 (fst x) &&
         (if S i <? Nat.min a b
          then Qle_bool (fst (get (gre 0%Qc) X (bi ++ [S i; S i]))) (fst x)
          else true)
       else gq_is_zero x)
    (seq 0 (numel (shape X))).

(** The singular value decomposition of such a matrix: the diagonal, and
    two rectangular identities. *)
Definition svd_diag (X : tensor gq)
  : result (tensor Qc * tensor gq * tensor gq) :=
  match split_last2 (shape X) with
  | Some (bsh, a, b) =>
      let nb := length bsh in
      let p := Nat.min a b in
      if is_sorted_diag X nb a b then
        Ok (tabulate (bsh ++ [p])
              (fun idx => fst (get (gre 0%Qc) X (idx ++ [nth nb idx 0]))),
            tabulate (bsh ++ [a; p])
              (fun idx => kron (nth nb idx 0) (nth (S nb) idx 0)),
            tabulate (bsh ++ [b; p])
              (fun idx => kron (nth nb idx 0) (nth (S nb) idx 0)))
      else Err "reference svd: not a sorted diagonal matrix"
  | None => Err "svd: rank must be at least 2"
  end.

(** Eigenpairs of a 1x1 matrix and of an upper-triangular 2x2 matrix
    [[a, b], [0, d]]: eigenvalues [a] and [d], eigenvectors [(1, 0)] and
    [(b, d - a)] (or [(0, 1)] when [b = 0]). *)
Definition eig_triangular (T : tensor gq) : result (tensor gq * tensor gq) :=
  let e := fun i j => get (gre 0%Qc) T [i; j] in
  match shape T with
  | [1; 1] => Ok (vec 1 (fun _ => e 0 0), mat 1 1 kron)
  | [2; 2] =>
      if gq_is_zero (e 1 0) then
        Ok (vec 2 (fun i => e i i),
            if gq_is_zero (e 0 1) then mat 2 2 kron
            else mat 2 2 (fun i j =>
                   match i, j with
                   | 0, 0 => gre 1%Qc
                   | 0, _ => e 0 1
                   | _, 0 => gre 0%Qc
                   | _, _ => gsub (e 1 1) (e 0 0)
                   end))
      else Err "reference eig: not an upper-triangular matrix"
  | _ => Err "reference eig: unsupported size"
  end.

(** Determinant and adjugate-over-determinant of a 1x1 or 2x2 matrix. *)
Definition inv_formula (T : tensor gq) : option (gq * tensor gq) :=
  let e := fun i j => get (gre 0%Qc) T [i; j] in
  match shape T with
  | [1; 1] => Some (e 0 0, mat 1 1 (fun _ _ => gdiv (gre 1%Qc) (e 0 0)))
  | [2; 2] =>
      let det := gsub (gmul (e 0 0) (e 1 1)) (gmul (e 0 1) (e 1 0)) in
      Some (det,
            mat 2 2 (fun i j =>
              gdiv (match i, j with
                    | 0, 0 => e 1 1
                    | 0, _ => gopp (e 0 1)
                    | _, 0 => gopp (e 1 0)
                    | _, _ => e 0 0
                    end) det))
  | _ => None
  end.

(** An inverse that reports a zero determinant ... *)
Definition inv_checked (T : tensor gq) : result (tensor gq) :=
  match inv_formula T with
  | Some (det, M) =>
      if gq_is_zero det then Err "Input is not invertible" else Ok M
  | None => Err "reference inv: unsupported size"
  end.


Definition checked_backend : backend QG :=
  mkBackend QG svd_diag eig_triangular inv_checked.


(** ** Concrete inputs *)

Definition gz (re im : Z) : gq := (Q2Qc (inject_Z re), Q2Qc (inject_Z im)).

(** Two trajectories of two 2x2 matrices each. *)
Definition traj_two_modes : tensor gq :=
  mkT [2; 2; 2; 2]
    [ gz 2 0; gz 0 0; gz 0 0; gz 0 0;   gz 6 8; gz 0 0; gz 1 0; gz 0 0;
      gz 0 0; gz 1 0; gz 0 0; gz 0 0;   gz 0 0; gz 9 0; gz 0 0; gz 0 1 ].

(** Two scalar trajectories of three steps each: [(1, 0, 0)] and [(0, 1, 0)]. *)
Definition traj_defective : tensor gq :=
  mkT [2; 3; 1; 1] [ gz 1 0; gz 0 0; gz 0 0;   gz 0 0; gz 1 0; gz 0 0 ].

(** [(1, 0, 0)] and [(0, 1, 1)]. *)
Definition traj_zero_mode : tensor gq :=
  mkT [2; 3; 1; 1] [ gz 1 0; gz 0 0; gz 0 0;   gz 0 0; gz 1 0; gz 1 0 ].

Definition eps5 : Qc := Q2Qc 1e-5.

Definition gq_eqb (x y : gq) : bool :=
  Qeq_bool (fst x) (fst y) && Qeq_bool (snd x) (snd y).

Fixpoint list_eqb (l1 l2 : list gq) : bool :=
  match l1, l2 with
  | [], [] => true
  | x :: l1', y :: l2' => gq_eqb x y && list_eqb l1' l2'
  | _, _ => false
  end.

Definition tensor_eqb (t1 t2 : tensor gq) : bool :=
  shape_eqb (shape t1) (shape t2) && list_eqb (data t1) (data t2).

(** Two computations return the same tensor. *)
Definition same_tensor (r1 r2 : result (tensor gq)) : bool :=
  match r1, r2 with
  | Ok t1, Ok t2 => tensor_eqb t1 t2
  | _, _ => false
  end.

(** [(s, u, v)] factorizes [X]: [X = u . diag(s) . v^H]. *)
Definition is_svd_of (X : tensor gq) (f : tensor Qc * tensor gq * tensor gq)
  : bool :=
  let '(s, u, v) := f in
  same_tensor
    (us <- tf_binop (gre 0%Qc) (gre 0%Qc) gmul u (tmap gre s) ;;
     vh <- tf_adjoint QG v ;;
     tf_matmul QG us vh)
    (Ok X).

(** The value of a computation that succeeded. *)
Definition value {A : Type} (d : A) (r : result A) : A :=
  match r with Ok a => a | Err _ => d end.

Definition no_tensor : tensor gq := mkT [] [].

(** A batch of two integer sequences of length 4. *)
Definition two_sequences : tensor Z :=
  mkT [2; 4; 1] [1; 2; 3; 4;  10; 20; 30; 40]%Z.

(** The stages of [dmd] on [traj_two_modes] with K = 1. *)
Definition two_modes_design : tensor gq * tensor gq :=
  value (no_tensor, no_tensor) (dmd_design QG traj_two_modes 1).

Definition two_modes_modes : tensor gq * tensor gq * tensor gq :=
  value (no_tensor, no_tensor, no_tensor)
    (dmd_modes checked_backend (fst two_modes_design) (snd two_modes_design) eps5).

(** The stages of [dmd] on [traj_defective] with K = 2. *)
Definition defective_design : tensor gq * tensor gq :=
  value (no_tensor, no_tensor) (dmd_design QG traj_defective 2).



(** The stages of [dmd] on [traj_zero_mode] with K = 2. *)
Definition zero_mode_design : tensor gq * tensor gq :=
  value (no_tensor, no_tensor) (dmd_design QG traj_zero_mode 2).

Definition zero_mode_reduced : tensor gq * tensor gq * tensor gq :=
  value (no_tensor, no_tensor, no_tensor)
    (dmd_reduced checked_backend (fst zero_mode_design) (snd zero_mode_design) eps5).

Definition zero_mode_eig : tensor gq * tensor gq :=
  value (no_tensor, no_tensor) (eig checked_backend (snd zero_mode_reduced)).

Definition zero_mode_modes : tensor gq * tensor gq * tensor gq :=
  value (no_tensor, no_tensor, no_tensor)
    (dmd_modes checked_backend (fst zero_mode_design) (snd zero_mode_design) eps5).

(** A 2x3 zero matrix and its factors. *)
Definition zero_matrix : tensor gq := mat 2 3 (fun _ _ => gre 0%Qc).

Definition zero_matrix_svd : tensor Qc * tensor gq * tensor gq :=
  value (mkT [] [], no_tensor, no_tensor) (svd checked_backend zero_matrix).

(** diag(2, 0) as a matrix and as a batch of one matrix. *)
Definition diag_2_0 : tensor gq :=
  mkT [2; 2] [ gz 2 0; gz 0 0;  gz 0 0; gz 0 0 ].

Definition batched_diag_2_0 : tensor gq :=
  mkT [1; 2; 2] [ gz 2 0; gz 0 0;  gz 0 0; gz 0 0 ].

(** Regression data: X = diag(2, 1e-9) padded to 2x3, Y of shape 2x3. *)
Definition regression_X : tensor gq :=
  mkT [2; 3] [ gz 2 0; gz 0 0; gz 0 0;
               gz 0 0; gre (Q2Qc 1e-9); gz 0 0 ].

Definition regression_Y : tensor gq :=
  mkT [2; 3] [ gz 1 0; gz 2 0; gz 3 0;  gz 0 1; gz 5 0; gz 6 0 ].

(** * Properties *)

(** ** Row-major indexing *)

Lemma shape_eqb_refl (sh : list nat) : shape_eqb sh sh = true.
Proof. induction sh; simpl; auto. now rewrite Nat.eqb_refl. Qed.

Lemma in_bounds_length (sh idx : list nat) :
  in_bounds sh idx = true -> length idx = length sh.
Proof.
  revert idx; induction sh as [|d sh IH]; intros [|i idx]; simpl; try discriminate; auto.
  intros H; apply andb_prop in H as [_ H]; f_equal; auto.
Qed.

Lemma ravel_lt (sh idx : list nat) :
  in_bounds sh idx = true -> ravel sh idx < numel sh.
Proof.
  revert idx; induction sh as [|d sh IH]; intros [|i idx]; simpl; try discriminate.
  - lia.
  - intros H; apply andb_prop in H as [Hi H].
    apply Nat.ltb_lt in Hi. specialize (IH _ H). nia.
Qed.

Lemma unravel_ravel (sh idx : list nat) :
  in_bounds sh idx = true -> unravel sh (ravel sh idx) = idx.
Proof.
  revert idx; induction sh as [|d sh IH]; intros [|i idx]; simpl; try discriminate; auto.
  intros H; apply andb_prop in H as [Hi H].
  pose proof (ravel_lt _ _ H) as Hr.
  rewrite <- (Nat.div_unique (i * numel sh + ravel sh idx) (numel sh) i (ravel sh idx)) by lia.
  rewrite <- (Nat.mod_unique (i * numel sh + ravel sh idx) (numel sh) i (ravel sh idx)) by lia.
  f_equal; auto.
Qed.

Lemma in_bounds_unravel (sh : list nat) (off : nat) :
  off < numel sh -> in_bounds sh (unravel sh off) = true.
Proof.
  revert off; induction sh as [|d sh IH]; intros off H; simpl in *; auto.
  assert (Hn : numel sh <> 0) by (intros E; rewrite E in H; lia).
  apply andb_true_intro; split.
  - apply Nat.ltb_lt. apply Nat.Div0.div_lt_upper_bound. lia.
  - apply IH. apply Nat.mod_upper_bound; assumption.
Qed.

Lemma ravel_unravel (sh : list nat) (off : nat) :
  off < numel sh -> ravel sh (unravel sh off) = off.
Proof.
  revert off; induction sh as [|d sh IH]; intros off H; simpl in *.
  - lia.
  - assert (Hn : numel sh <> 0) by (intros E; rewrite E in H; lia).
    rewrite IH by (apply Nat.mod_upper_bound; assumption).
    pose proof (Nat.div_mod_eq off (numel sh)). lia.
Qed.

Lemma shape_tabulate (A : Type) (sh : list nat) (f : list nat -> A) :
  shape (tabulate sh f) = sh.
Proof. reflexivity. Qed.

Lemma wf_tabulate (A : Type) (sh : list nat) (f : list nat -> A) :
  wf (tabulate sh f).
Proof. unfold wf, tabulate; simpl. now rewrite length_map, length_seq. Qed.

Lemma get_tabulate (A : Type) (d : A) (sh : list nat) (f : list nat -> A) idx :
  in_bounds sh idx = true -> get d (tabulate sh f) idx = f idx.
Proof.
  intros H. unfold get, tabulate; simpl. rewrite H.
  pose proof (ravel_lt _ _ H) as Hlt.
  rewrite (nth_indep _ d (f (unravel sh 0)))
    by (now rewrite length_map, length_seq).
  rewrite (map_nth (fun off => f (unravel sh off))).
  rewrite seq_nth by assumption. simpl.
  now rewrite unravel_ravel.
Qed.

Lemma tabulate_ext (A : Type) (sh : list nat) (f g : list nat -> A) :
  (forall idx, in_bounds sh idx = true -> f idx = g idx) ->
  tabulate sh f = tabulate sh g.
Proof.
  intros H. unfold tabulate. f_equal.
  apply map_ext_in. intros off Hin. apply in_seq in Hin.
  apply H, in_bounds_unravel. lia.
Qed.

(** A tensor is determined by its shape and its elements. *)
Lemma tensor_ext (A : Type) (d : A) (t1 t2 : tensor A) :
  wf t1 -> wf t2 -> shape t1 = shape t2 ->
  (forall idx, in_bounds (shape t1) idx = true -> get d t1 idx = get d t2 idx) ->
  t1 = t2.
Proof.
  destruct t1 as [sh1 d1], t2 as [sh2 d2]; unfold wf; simpl.
  intros W1 W2 <- H. f_equal.
  apply (nth_ext _ _ d d); [congruence|].
  intros off Hoff. rewrite W1 in Hoff.
  specialize (H _ (in_bounds_unravel _ Hoff)).
  unfold get in H; simpl in H.
  now rewrite (in_bounds_unravel _ Hoff), ravel_unravel in H.
Qed.

(** Reshaping keeps the buffer: two indices with the same offset read the
    same element. *)
Lemma get_same_offset (A : Type) (d : A) (sh1 sh2 : list nat) (dat : list A) idx1 idx2 :
  in_bounds sh1 idx1 = true -> in_bounds sh2 idx2 = true ->
  ravel sh1 idx1 = ravel sh2 idx2 ->
  get d (mkT sh1 dat) idx1 = get d (mkT sh2 dat) idx2.
Proof. intros H1 H2 E. unfold get; simpl. now rewrite H1, H2, E. Qed.

(** ** The TensorFlow operations *)

(** Index-in-range goals [in_bounds [d1; ...; dk] [i1; ...; ik] = true]. *)
Ltac bounds :=
  cbn [in_bounds]; repeat (apply andb_true_intro; split); try reflexivity;
  try (apply Nat.ltb_lt; first [lia | nia]).

Lemma clip_nonneg (d : nat) (z : Z) :
  (0 <= z)%Z -> clip d z = Nat.min (Z.to_nat z) d.
Proof. intros H. unfold clip. destruct (Z.ltb_spec z 0); [lia|reflexivity]. Qed.

Lemma infer_dims_nonneg (total : nat) (dims : list Z) :
  Forall (fun z => (0 <= z)%Z) dims ->
  infer_dims total dims = Ok (map Z.to_nat dims).
Proof.
  intros H. unfold infer_dims.
  assert (E1 : existsb (fun z => (z <? -1)%Z) dims = false).
  { induction H as [|z l Hz _ IH]; simpl; auto.
    rewrite IH. destruct (Z.ltb_spec z (-1)); [lia|reflexivity]. }
  assert (E2 : filter (fun z => (z =? -1)%Z) dims = []).
  { clear E1. induction H as [|z l Hz _ IH]; simpl; auto.
    destruct (Z.eqb_spec z (-1)); [lia|assumption]. }
  now rewrite E1, E2.
Qed.

Lemma tf_reshape_nonneg (A : Type) (t : tensor A) (dims : list Z) :
  Forall (fun z => (0 <= z)%Z) dims ->
  numel (map Z.to_nat dims) = numel (shape t) ->
  tf_reshape t dims = Ok (mkT (map Z.to_nat dims) (data t)).
Proof.
  intros H E. unfold tf_reshape. rewrite infer_dims_nonneg by assumption.
  cbn [bind]. now rewrite E, Nat.eqb_refl.
Qed.

Lemma tensor_eta (A : Type) (t : tensor A) : t = mkT (shape t) (data t).
Proof. now destruct t. Qed.

Lemma get_reshape (A : Type) (d : A) (t : tensor A) sh' idx' idx :
  in_bounds sh' idx' = true -> in_bounds (shape t) idx = true ->
  ravel sh' idx' = ravel (shape t) idx ->
  get d (mkT sh' (data t)) idx' = get d t idx.
Proof. destruct t as [sh dat]. apply get_same_offset. Qed.

Lemma slice_axis_ok (A : Type) (d : A) (ax : nat) (lo hi : option Z) (t : tensor A) :
  ax < length (shape t) ->
  slice_axis d ax lo hi t =
  Ok (tabulate
        (set_nth ax (slice_stop (nth ax (shape t) 0) hi
                     - slice_start (nth ax (shape t) 0) lo) (shape t))
        (fun idx => get d t (set_nth ax (nth ax idx 0
                      + slice_start (nth ax (shape t) 0) lo) idx))).
Proof.
  intros H. unfold slice_axis.
  destruct (Nat.ltb_spec ax (length (shape t))); [reflexivity|lia].
Qed.

Lemma transpose_201 (A : Type) (d : A) (a b c : nat) (dat : list A) :
  tf_transpose d (mkT [a; b; c] dat) [2; 0; 1] =
  Ok (tabulate [c; a; b]
        (fun idx => get d (mkT [a; b; c] dat)
                      [nth 1 idx 0; nth 2 idx 0; nth 0 idx 0])).
Proof. reflexivity. Qed.

(** ** [hankel]: the loop invariant *)

Section HankelProofs.

Variable A : Type.
Variable dflt : A.
Variables bs L feat K : nat.
Variable dat : list A.
Hypothesis HK : K <= L.

Let T := mkT [bs; L; feat] dat.

Lemma hankel_window (i : nat) :
  i + K <= L ->
  exists w,
    slice_axis dflt 1 (Some (Z.of_nat i)) (Some (Z.of_nat K + Z.of_nat i)%Z) T
      = Ok w /\
    shape w = [bs; K; feat] /\
    forall b k f, b < bs -> k < K -> f < feat ->
      get dflt (expand_dims 1 w) [b; 0; k; f] = get dflt T [b; i + k; f].
Proof.
  intros Hi. unfold slice_axis. simpl.
  rewrite !clip_nonneg by lia.
  replace (Nat.min (Z.to_nat (Z.of_nat K + Z.of_nat i)) L
           - Nat.min (Z.to_nat (Z.of_nat i)) L) with K by lia.
  replace (Nat.min (Z.to_nat (Z.of_nat i)) L) with i by lia.
  eexists; split; [reflexivity|]. split; [reflexivity|].
  intros b k f Hb Hk Hf.
  unfold expand_dims, tabulate; simpl.
  rewrite (get_same_offset dflt [bs; 1; K; feat] [bs; K; feat] _
             [b; 0; k; f] [b; k; f]);
    [ | bounds | bounds | simpl; lia ].
  change (mkT [bs; K; feat] ?d)
    with (tabulate [bs; K; feat]
            (fun idx => get dflt T (set_nth 1 (nth 1 idx 0 + i) idx))).
  rewrite get_tabulate by bounds. simpl. f_equal. f_equal. f_equal. lia.
Qed.

Lemma hankel_first :
  exists w, slice_axis dflt 1 None (Some (Z.of_nat K)) T = Ok w /\
    windows dflt T bs K feat 1 (expand_dims 1 w).
Proof.
  destruct (hankel_window 0) as (w & Hw & Hsh & Hget); [lia|].
  exists w. split.
  - rewrite <- Hw. unfold slice_axis; simpl. rewrite !clip_nonneg by lia.
    rewrite Z.add_0_r. reflexivity.
  - split.
    + unfold expand_dims; rewrite Hsh; reflexivity.
    + intros b i k f Hb Hi Hk Hf. replace i with 0 by lia. now apply Hget.
Qed.

Lemma hankel_step (j : nat) (t : tensor A) :
  j + K <= L -> windows dflt T bs K feat j t ->
  exists t',
    hankel_body dflt T (Z.of_nat K) (Z.of_nat j, t) = Ok (Z.of_nat (S j), t') /\
    windows dflt T bs K feat (S j) t'.
Proof.
  intros Hj [Hsh Hget].
  destruct (hankel_window j Hj) as (w & Hw & Hwsh & Hwget).
  unfold hankel_body. rewrite Hw. simpl bind.
  assert (Hesh : shape (expand_dims 1 w) = [bs; 1; K; feat])
    by (unfold expand_dims; rewrite Hwsh; reflexivity).
  unfold tf_concat. rewrite Hsh, Hesh.
  cbn [shape nth set_nth firstn skipn app length].
  change (1 <? 4) with true. cbn [negb].
  rewrite shape_eqb_refl.
  eexists. split.
  - replace (Z.of_nat (S j)) with (Z.of_nat j + 1)%Z by lia. reflexivity.
  - split; [simpl; f_equal; f_equal; lia|].
    intros b i k f Hb Hi Hk Hf.
    rewrite get_tabulate by bounds. cbn [nth set_nth].
    destruct (Nat.ltb_spec i j) as [Hlt|Hge].
    + now apply Hget.
    + replace (i - j) with 0 by lia. replace i with j by lia. now apply Hwget.
Qed.

Lemma hankel_loop (fuel j : nat) (t : tensor A) :
  j + fuel = L - K + 1 -> windows dflt T bs K feat j t ->
  exists t',
    while_loop fuel (hankel_cond L (Z.of_nat K))
      (hankel_body dflt T (Z.of_nat K)) (Z.of_nat j, t)
      = Ok (Z.of_nat (L - K + 1), t') /\
    windows dflt T bs K feat (L - K + 1) t'.
Proof.
  revert j t; induction fuel as [|fuel IH]; intros j t Hj Hw.
  - exists t. assert (j = L - K + 1) by lia; subst j. split; [|assumption].
    assert (Hc : hankel_cond L (Z.of_nat K) (Z.of_nat (L - K + 1), t) = false)
      by (unfold hankel_cond; cbn [fst]; apply Z.leb_gt; lia).
    cbn [while_loop]. now rewrite Hc.
  - destruct (@hankel_step j t) as (t1 & Hb & Hw1); [lia|assumption|].
    destruct (IH (S j) t1) as (t' & Hl & Hw'); [lia|assumption|].
    exists t'. split; [|assumption].
    cbn [while_loop].
    assert (Hc : hankel_cond L (Z.of_nat K) (Z.of_nat j, t) = true)
      by (unfold hankel_cond; cbn [fst]; apply Z.leb_le; lia).
    rewrite Hc, Hb. cbn [bind]. exact Hl.
Qed.

(** For [0 <= K <= L] the loop runs [L - K] times and [hankel] returns the
    [L - K + 1] windows. *)
Lemma hankel_spec :
  exists t, hankel dflt T (Z.of_nat K) = Ok t /\
            windows dflt T bs K feat (L - K + 1) t.
Proof.
  destruct hankel_first as (w & Hw & Hwin).
  destruct (@hankel_loop (L - K) 1 (expand_dims 1 w)) as (t & Hl & Ht);
    [lia|assumption|].
  exists t. split; [|assumption].
  unfold hankel. cbn [shape T]. cbv zeta. rewrite Hw. cbn [bind].
  destruct (Z.ltb_spec (Z.of_nat K) 0); [lia|].
  replace (Z.to_nat (Z.of_nat L - Z.of_nat K)) with (L - K) by lia.
  change 1%Z with (Z.of_nat 1). rewrite Hl. reflexivity.
Qed.

End HankelProofs.

(** ** [dmd]: the design matrices *)

Section Design.

Variable Sc : scalars.
Variables bs n m K : nat.
Variable traj : tensor (C Sc).
Hypothesis Hshape : shape traj = [bs; n; m; m].
Hypothesis HK1 : 1 <= K.
Hypothesis HKn : K <= n - 1.

Lemma dmd_design_spec :
  exists X Y, dmd_design Sc traj (Z.of_nat K) = Ok (X, Y) /\
    shape X = [K * (m * m); bs * (n - K)] /\
    shape Y = [K * (m * m); bs * (n - K)] /\
    forall b i k r c, b < bs -> i < n - K -> k < K -> r < m -> c < m ->
      get (c0 Sc) X [k * (m * m) + r * m + c; b * (n - K) + i]
        = get (c0 Sc) traj [b; i + k; r; c] /\
      get (c0 Sc) Y [k * (m * m) + r * m + c; b * (n - K) + i]
        = get (c0 Sc) traj [b; i + 1 + k; r; c].
Proof.
  unfold dmd_design. rewrite Hshape.
  (* reshape to (bs, n, m**2) *)
  rewrite tf_reshape_nonneg;
    [ | repeat constructor; try apply Z.pow_nonneg; lia
      | rewrite Hshape; cbn [map numel fold_right];
        rewrite Z2Nat.inj_pow, !Nat2Z.id by lia; simpl; lia ].
  cbn [bind map].
  replace (Z.to_nat (Z.of_nat m ^ 2)) with (m * m)
    by (rewrite Z2Nat.inj_pow, !Nat2Z.id by lia; simpl; lia).
  rewrite !Nat2Z.id.
  destruct (@hankel_spec _ (c0 Sc) bs n (m * m) K (data traj)) as (t1 & Hh & Hsh1 & Hg1); [lia|].
  rewrite Hh. cbn [bind].
  set (F := K * (m * m)). set (N := n - K).
  assert (EF : Z.to_nat (Z.of_nat K * Z.of_nat m ^ 2) = F)
    by (rewrite Z2Nat.inj_mul, Z2Nat.inj_pow, !Nat2Z.id by (try apply Z.pow_nonneg; lia);
        subst F; simpl; lia).
  assert (EW : Z.to_nat (Z.of_nat n - Z.of_nat K + 1) = N + 1) by lia.
  assert (EN : Z.to_nat (Z.of_nat bs * (Z.of_nat n - Z.of_nat K)) = bs * N)
    by (rewrite Z2Nat.inj_mul by lia; subst N; lia).
  assert (PF : (0 <= Z.of_nat K * Z.of_nat m ^ 2)%Z)
    by (apply Z.mul_nonneg_nonneg; [lia | apply Z.pow_nonneg; lia]).
  assert (PN : (0 <= Z.of_nat bs * (Z.of_nat n - Z.of_nat K))%Z)
    by (apply Z.mul_nonneg_nonneg; lia).
  (* reshape to (bs, n-K+1, K*m**2) *)
  rewrite tf_reshape_nonneg;
    [ | repeat constructor; lia
      | rewrite Hsh1; cbn [map numel fold_right]; rewrite EF, EW, Nat2Z.id;
        subst F N; ring ].
  cbn [bind map]. rewrite EF, EW, Nat2Z.id.
  (* transpose, slices *)
  rewrite transpose_201. cbn [bind].
  unfold slice_last. rewrite !shape_tabulate. cbn [length].
  rewrite slice_axis_ok by (rewrite shape_tabulate; cbn [length]; lia). cbn [bind].
  rewrite slice_axis_ok by (rewrite shape_tabulate; cbn [length]; lia). cbn [bind].
  rewrite !shape_tabulate.
  cbn [nth set_nth slice_start slice_stop].
  assert (Ec1 : clip (N + 1) (-1) = N)
    by (unfold clip; change (-1 <? 0)%Z with true; cbv iota; lia).
  assert (Ec2 : clip (N + 1) 1 = 1)
    by (unfold clip; change (1 <? 0)%Z with false; cbv iota;
        change (Z.to_nat 1) with 1; lia).
  rewrite Ec1, Ec2, Nat.sub_0_r, Nat.add_sub.
  rewrite !tf_reshape_nonneg;
    [ | repeat constructor; lia
      | rewrite shape_tabulate; cbn [map numel fold_right]; rewrite EF, EN; ring
      | repeat constructor; lia
      | rewrite shape_tabulate; cbn [map numel fold_right]; rewrite EF, EN; ring ].
  cbn [bind map]. rewrite EF, EN.
  do 2 eexists. split; [reflexivity|]. split; [reflexivity|]. split; [reflexivity|].
  intros b i k r c Hb Hi Hk Hr Hc.
  assert (Hf : k * (m * m) + r * m + c < F) by (subst F; nia).
  assert (Hcol : b * N + i < bs * N) by nia.
  assert (Htr : forall j, j < N + 1 ->
            get (c0 Sc) (mkT [bs; N + 1; F] (data t1)) [b; j; k * (m * m) + r * m + c]
            = get (c0 Sc) traj [b; j + k; r; c]).
  { intros j Hj.
    rewrite (get_reshape (c0 Sc) t1 [bs; N + 1; F] [b; j; k * (m * m) + r * m + c]
               [b; j; k; r * m + c]);
      [ | bounds | rewrite Hsh1; subst N; bounds
        | rewrite Hsh1; cbn [ravel numel fold_right]; subst F N; ring ].
    rewrite Hg1 by (subst N; first [lia | nia]).
    rewrite (get_reshape (c0 Sc) traj [bs; n; m * m] [b; j + k; r * m + c]
               [b; j + k; r; c]);
      [ reflexivity | subst N; bounds | rewrite Hshape; subst N; bounds
        | rewrite Hshape; cbn [ravel numel fold_right]; ring ]. }
  split.
  - rewrite (get_reshape (c0 Sc) _ [F; bs * N] [k * (m * m) + r * m + c; b * N + i]
               [k * (m * m) + r * m + c; b; i]);
      [ | bounds | rewrite shape_tabulate; bounds
        | rewrite shape_tabulate; cbn [ravel numel fold_right]; ring ].
    rewrite get_tabulate by bounds. cbn [nth set_nth].
    rewrite get_tabulate by bounds. cbn [nth].
    rewrite Nat.add_0_r. apply Htr. lia.
  - rewrite (get_reshape (c0 Sc) _ [F; bs * N] [k * (m * m) + r * m + c; b * N + i]
               [k * (m * m) + r * m + c; b; i]);
      [ | bounds | rewrite shape_tabulate; bounds
        | rewrite shape_tabulate; cbn [ravel numel fold_right]; ring ].
    rewrite get_tabulate by bounds. cbn [nth set_nth].
    rewrite get_tabulate by bounds. cbn [nth].
    rewrite Htr by lia. reflexivity.
Qed.

End Design.

(** ** Matrices by entries *)

Lemma in_bounds_1 (n : nat) idx :
  in_bounds [n] idx = true -> exists i, idx = [i] /\ i < n.
Proof.
  destruct idx as [|i [|? ?]]; cbn [in_bounds]; try discriminate.
  - intros H. apply andb_prop in H as [H _]. apply Nat.ltb_lt in H. eauto.
  - intros H. apply andb_prop in H as [_ H]. discriminate.
Qed.

Lemma in_bounds_2 (m n : nat) idx :
  in_bounds [m; n] idx = true -> exists i j, idx = [i; j] /\ i < m /\ j < n.
Proof.
  destruct idx as [|i [|j [|? ?]]]; cbn [in_bounds]; try discriminate.
  - intros H. apply andb_prop in H as [_ H]. discriminate.
  - intros H. apply andb_prop in H as [Hi H]. apply andb_prop in H as [Hj _].
    apply Nat.ltb_lt in Hi, Hj. eauto.
  - intros H. apply andb_prop in H as [_ H]. apply andb_prop in H as [_ H]. discriminate.
Qed.

Lemma get_mat (A : Type) (d : A) (m n : nat) (f : nat -> nat -> A) i j :
  i < m -> j < n -> get d (mat m n f) [i; j] = f i j.
Proof. intros Hi Hj. unfold mat. now rewrite get_tabulate by bounds. Qed.

Lemma get_vec (A : Type) (d : A) (n : nat) (f : nat -> A) i :
  i < n -> get d (vec n f) [i] = f i.
Proof. intros Hi. unfold vec. now rewrite get_tabulate by bounds. Qed.

Lemma shape_mat (A : Type) (m n : nat) (f : nat -> nat -> A) :
  shape (mat m n f) = [m; n].
Proof. reflexivity. Qed.

Lemma shape_vec (A : Type) (n : nat) (f : nat -> A) : shape (vec n f) = [n].
Proof. reflexivity. Qed.

Lemma mat_ext (A : Type) (m n : nat) (f g : nat -> nat -> A) :
  (forall i j, i < m -> j < n -> f i j = g i j) -> mat m n f = mat m n g.
Proof.
  intros H. apply tabulate_ext. intros idx Hb.
  apply in_bounds_2 in Hb as (i & j & -> & Hi & Hj). now apply H.
Qed.

Lemma vec_ext (A : Type) (n : nat) (f g : nat -> A) :
  (forall i, i < n -> f i = g i) -> vec n f = vec n g.
Proof.
  intros H. apply tabulate_ext. intros idx Hb.
  apply in_bounds_1 in Hb as (i & -> & Hi). now apply H.
Qed.

Lemma tabulate_mat (A : Type) (m n : nat) (f : list nat -> A) :
  tabulate [m; n] f = mat m n (fun i j => f [i; j]).
Proof.
  apply tabulate_ext. intros idx Hb.
  apply in_bounds_2 in Hb as (i & j & -> & Hi & Hj). reflexivity.
Qed.

Lemma tabulate_vec (A : Type) (n : nat) (f : list nat -> A) :
  tabulate [n] f = vec n (fun i => f [i]).
Proof.
  apply tabulate_ext. intros idx Hb.
  apply in_bounds_1 in Hb as (i & -> & Hi). reflexivity.
Qed.

Lemma tmap_tabulate (A B : Type) (g : A -> B) sh (f : list nat -> A) :
  tmap g (tabulate sh f) = tabulate sh (fun idx => g (f idx)).
Proof. unfold tmap, tabulate; simpl. now rewrite map_map. Qed.

Lemma tmap_mat (A B : Type) (g : A -> B) m n (f : nat -> nat -> A) :
  tmap g (mat m n f) = mat m n (fun i j => g (f i j)).
Proof. apply tmap_tabulate. Qed.

Lemma tmap_vec (A B : Type) (g : A -> B) n (f : nat -> A) :
  tmap g (vec n f) = vec n (fun i => g (f i)).
Proof. apply tmap_tabulate. Qed.

(** ** The operations on matrices and vectors *)

Lemma slice_cols (A : Type) (d : A) (u : tensor A) (a p k : nat) :
  shape u = [a; p] -> k <= p ->
  slice_axis d 1 None (zint k) u = Ok (mat a k (fun i j => get d u [i; j])).
Proof.
  intros Hs Hk. rewrite slice_axis_ok by (rewrite Hs; cbn [length]; lia).
  rewrite Hs. cbn [nth set_nth slice_start slice_stop zint].
  rewrite clip_nonneg by lia. rewrite Nat2Z.id, Nat.sub_0_r, Nat.min_l by lia.
  apply f_equal. rewrite tabulate_mat. apply mat_ext. intros i j _ _.
  cbn [nth set_nth]. now rewrite Nat.add_0_r.
Qed.

Lemma slice_prefix (A : Type) (d : A) (s : tensor A) (p k : nat) :
  shape s = [p] -> k <= p ->
  slice_axis d 0 None (zint k) s = Ok (vec k (fun i => get d s [i])).
Proof.
  intros Hs Hk. rewrite slice_axis_ok by (rewrite Hs; cbn [length]; lia).
  rewrite Hs. cbn [nth set_nth slice_start slice_stop zint].
  rewrite clip_nonneg by lia. rewrite Nat2Z.id, Nat.sub_0_r, Nat.min_l by lia.
  apply f_equal. rewrite tabulate_vec. apply vec_ext. intros i _.
  cbn [nth set_nth]. now rewrite Nat.add_0_r.
Qed.

Lemma slice_suffix (A : Type) (d : A) (s : tensor A) (p k : nat) :
  shape s = [p] -> k <= p ->
  slice_axis d 0 (zint k) None s = Ok (vec (p - k) (fun i => get d s [i + k])).
Proof.
  intros Hs Hk. rewrite slice_axis_ok by (rewrite Hs; cbn [length]; lia).
  rewrite Hs. cbn [nth set_nth slice_start slice_stop zint].
  rewrite clip_nonneg by lia. rewrite Nat2Z.id, Nat.min_l by lia.
  apply f_equal. rewrite tabulate_vec. apply vec_ext. intros i _. reflexivity.
Qed.

Lemma matrix_transpose_mat (A : Type) (d : A) (t : tensor A) (m n : nat) :
  shape t = [m; n] ->
  tf_matrix_transpose d t = Ok (mat n m (fun i j => get d t [j; i])).
Proof.
  intros Hs. unfold tf_matrix_transpose. rewrite Hs. cbn.
  apply f_equal. rewrite tabulate_mat. reflexivity.
Qed.

Lemma bproj_id (sh idx : list nat) :
  in_bounds sh idx = true -> bproj sh idx = idx.
Proof.
  intros H. unfold bproj. rewrite (in_bounds_length _ _ H), Nat.sub_diag.
  cbn [skipn]. revert idx H.
  induction sh as [|d sh IH]; intros [|i idx]; cbn [in_bounds combine map]; try discriminate; auto.
  intros H. apply andb_prop in H as [Hi H]. apply Nat.ltb_lt in Hi.
  rewrite IH by assumption. cbn [fst snd].
  destruct (Nat.eqb_spec d 1); [f_equal; lia | reflexivity].
Qed.

Lemma bshape_col (m n : nat) : bshape [m; n] [n] = Some [m; n].
Proof. unfold bshape. cbn. now rewrite Nat.eqb_refl. Qed.

Lemma bshape_same2 (m n : nat) : bshape [m; n] [m; n] = Some [m; n].
Proof. unfold bshape. cbn. now rewrite !Nat.eqb_refl. Qed.

Section Algebra.

Variable Sc : scalars.

Lemma csum_ext (n : nat) (f g : nat -> C Sc) :
  (forall l, l < n -> f l = g l) -> csum Sc n f = csum Sc n g.
Proof.
  intros H. unfold csum.
  assert (Hin : forall l, In l (seq 0 n) -> f l = g l)
    by (intros l Hl; apply in_seq in Hl; apply H; lia).
  clear H. induction (seq 0 n) as [|x l IH]; cbn [fold_right]; [reflexivity|].
  rewrite Hin by (now left). rewrite IH; [reflexivity|].
  intros y Hy. apply Hin. now right.
Qed.

Lemma binop_cols (f : C Sc -> C Sc -> C Sc) (v d : tensor (C Sc)) (m n : nat) :
  shape v = [m; n] -> shape d = [n] ->
  tf_binop (c0 Sc) (c0 Sc) f v d =
  Ok (mat m n (fun i j => f (get (c0 Sc) v [i; j]) (get (c0 Sc) d [j]))).
Proof.
  intros Hv Hd. unfold tf_binop. rewrite Hv, Hd, bshape_col.
  apply f_equal. rewrite tabulate_mat. apply mat_ext. intros i j Hi Hj.
  rewrite bproj_id by bounds.
  replace (bproj [n] [i; j]) with [j]; [reflexivity|].
  unfold bproj. cbn. destruct (Nat.eqb_spec n 1); [f_equal; lia|reflexivity].
Qed.

Lemma binop_same (f : C Sc -> C Sc -> C Sc) (a b : tensor (C Sc)) (m n : nat) :
  shape a = [m; n] -> shape b = [m; n] ->
  tf_binop (c0 Sc) (c0 Sc) f a b =
  Ok (mat m n (fun i j => f (get (c0 Sc) a [i; j]) (get (c0 Sc) b [i; j]))).
Proof.
  intros Ha Hb. unfold tf_binop. rewrite Ha, Hb, bshape_same2.
  apply f_equal. rewrite tabulate_mat. apply mat_ext. intros i j Hi Hj.
  now rewrite bproj_id by bounds.
Qed.

Lemma matmul_mat (a b : tensor (C Sc)) (m k n : nat) :
  shape a = [m; k] -> shape b = [k; n] ->
  tf_matmul Sc a b =
  Ok (mat m n (fun i j =>
        csum Sc k (fun l => cmul Sc (get (c0 Sc) a [i; l]) (get (c0 Sc) b [l; j])))).
Proof.
  intros Ha Hb. unfold tf_matmul. rewrite Ha, Hb. cbn.
  rewrite Nat.eqb_refl. reflexivity.
Qed.

Lemma adjoint_mat (a : tensor (C Sc)) (m n : nat) :
  shape a = [m; n] ->
  tf_adjoint Sc a = Ok (mat n m (fun i j => cconj Sc (get (c0 Sc) a [j; i]))).
Proof.
  intros Ha. unfold tf_adjoint. rewrite (matrix_transpose_mat _ _ Ha).
  cbn [bind]. now rewrite tmap_mat.
Qed.

Lemma reduce_sum_rows (t : tensor (C Sc)) (m n : nat) :
  shape t = [m; n] ->
  tf_reduce_sum_last Sc t =
  Ok (vec m (fun i => csum Sc n (fun l => get (c0 Sc) t [i; l]))).
Proof.
  intros Ht. unfold tf_reduce_sum_last. rewrite Ht. cbn.
  apply f_equal. rewrite tabulate_vec. reflexivity.
Qed.

End Algebra.

(** ** Finite sums over exact scalars *)

Section Sums.

Variable Sc : scalars.
Hypothesis HL : scalar_laws Sc.

Add Ring scalar_ring : (law_ring HL).

Local Infix "+c" := (cadd Sc) (at level 50, left associativity).
Local Infix "*c" := (cmul Sc) (at level 40, left associativity).

Lemma csum_0 (f : nat -> C Sc) : csum Sc 0 f = c0 Sc.
Proof. reflexivity. Qed.

Lemma csum_S (n : nat) (f : nat -> C Sc) :
  csum Sc (S n) f = csum Sc n f +c f n.
Proof.
  unfold csum. rewrite seq_S, fold_right_app. cbn [fold_right Nat.add].
  generalize (seq 0 n) as l. induction l as [|x l IH]; cbn [fold_right].
  - ring.
  - rewrite IH. ring.
Qed.

Lemma csum_mul_r (n : nat) (f : nat -> C Sc) (c : C Sc) :
  csum Sc n (fun l => f l *c c) = csum Sc n f *c c.
Proof.
  induction n as [|n IH]; [rewrite !csum_0; ring|].
  rewrite !csum_S, IH. ring.
Qed.

Lemma csum_zero (n : nat) (f : nat -> C Sc) :
  (forall l, l < n -> f l = c0 Sc) -> csum Sc n f = c0 Sc.
Proof.
  induction n as [|n IH]; intros H; [reflexivity|].
  rewrite csum_S, IH, H by auto. ring.
Qed.

Lemma csum_delta (n j : nat) (f g : nat -> C Sc) :
  j < n ->
  csum Sc n (fun l => f l *c (if l =? j then g l else c0 Sc)) = f j *c g j.
Proof.
  induction n as [|n IH]; intros Hj; [lia|].
  rewrite csum_S. destruct (Nat.eq_dec j n) as [->|Hne].
  - rewrite Nat.eqb_refl, csum_zero; [ring|].
    intros l Hl. destruct (Nat.eqb_spec l n); [lia|ring].
  - rewrite IH by lia. destruct (Nat.eqb_spec n j); [lia|ring].
Qed.


End Sums.

(** ** [dmd]: the reduced operator and the modes *)

Lemma count_gt_le (Sc : scalars) (s : tensor (R Sc)) (eps : R Sc) :
  count_gt Sc s eps <= length (data s).
Proof. unfold count_gt. apply filter_length_le. Qed.

Section ExactDmd.

Variable Sc : scalars.
Variable B : backend Sc.
Hypothesis HL : scalar_laws Sc.



End ExactDmd.

(** ** [dmd]: the normalization *)

Section Normalize.

Variable Sc : scalars.

Lemma dmd_norm_modes (R0 L0 : tensor (C Sc)) (F r : nat) :
  shape R0 = [F; r] -> shape L0 = [F; r] ->
  dmd_norm Sc R0 L0 = Ok (vec r (fun j => csqrt Sc (pairing Sc F L0 R0 j))).
Proof.
  intros HR HL0. unfold dmd_norm.
  rewrite (adjoint_mat Sc L0 HL0), (matrix_transpose_mat (c0 Sc) R0 HR). cbn [bind].
  rewrite (binop_same Sc _ _ _ (shape_mat _ _ _) (shape_mat _ _ _)). cbn [bind].
  rewrite (reduce_sum_rows Sc _ (shape_mat _ _ _)). cbn [bind].
  rewrite tmap_vec. apply f_equal, vec_ext. intros j Hj.
  apply f_equal. unfold pairing. apply csum_ext. intros f Hf.
  now rewrite !get_mat by assumption.
Qed.

Lemma dmd_normalize_value (R0 L0 : tensor (C Sc)) (F r : nat) :
  shape R0 = [F; r] -> shape L0 = [F; r] ->
  dmd_normalize Sc R0 L0 =
  Ok (mat F r (fun f j => cdiv Sc (get (c0 Sc) R0 [f; j])
                            (csqrt Sc (pairing Sc F L0 R0 j))),
      mat F r (fun f j => cdiv Sc (get (c0 Sc) L0 [f; j])
                            (cconj Sc (csqrt Sc (pairing Sc F L0 R0 j))))).
Proof.
  intros HR HL0. unfold dmd_normalize.
  rewrite (dmd_norm_modes _ _ HR HL0). cbn [bind].
  rewrite (binop_cols Sc _ _ _ HR (shape_vec _ _)). cbn [bind].
  rewrite tmap_vec.
  rewrite (binop_cols Sc _ _ _ HL0 (shape_vec _ _)). cbn [bind].
  apply f_equal. f_equal; apply mat_ext; intros f j Hf Hj;
    now rewrite get_vec by assumption.
Qed.

Hypothesis HLaws : scalar_laws Sc.
Add Ring scalar_ring' : (law_ring HLaws).

Lemma normalized_term (a b nrm : C Sc) :
  cmul Sc (cconj Sc (cdiv Sc a (cconj Sc nrm))) (cdiv Sc b nrm)
  = cmul Sc (cmul Sc (cconj Sc a) b)
      (cmul Sc (cdiv Sc (c1 Sc) nrm) (cdiv Sc (c1 Sc) nrm)).
Proof.
  rewrite (law_conj_div HLaws), (law_conj_conj HLaws).
  rewrite (law_div HLaws (cconj Sc a)), (law_div HLaws b). ring.
Qed.

Lemma dmd_normalize_biorthogonal (R0 L0 : tensor (C Sc)) (F r : nat) :
  shape R0 = [F; r] -> shape L0 = [F; r] ->
  (forall j, j < r ->
     pairing Sc F L0 R0 j <> c0 Sc /\
     cmul Sc (csqrt Sc (pairing Sc F L0 R0 j)) (csqrt Sc (pairing Sc F L0 R0 j))
       = pairing Sc F L0 R0 j) ->
  exists Rn Ln, dmd_normalize Sc R0 L0 = Ok (Rn, Ln) /\
    shape Rn = [F; r] /\ shape Ln = [F; r] /\
    forall j, j < r -> pairing Sc F Ln Rn j = c1 Sc.
Proof.
  intros HR HL0 Hn. rewrite (dmd_normalize_value _ _ HR HL0).
  do 2 eexists. split; [reflexivity|]. split; [reflexivity|]. split; [reflexivity|].
  intros j Hj. destruct (Hn j Hj) as [Hnz Hsq].
  set (s := pairing Sc F L0 R0 j) in *. set (nrm := csqrt Sc s) in *.
  assert (Hnrm : nrm <> c0 Sc).
  { intros E. apply Hnz. rewrite <- Hsq, E. ring. }
  unfold pairing.
  rewrite (csum_ext Sc _
             (fun f => cmul Sc (cmul Sc (cconj Sc (get (c0 Sc) L0 [f; j]))
                                  (get (c0 Sc) R0 [f; j]))
                         (cmul Sc (cdiv Sc (c1 Sc) nrm) (cdiv Sc (c1 Sc) nrm)))).
  2:{ intros f Hf. rewrite !get_mat by assumption.
      apply normalized_term. }
  rewrite (csum_mul_r HLaws). fold (pairing Sc F L0 R0 j). fold s.
  rewrite <- Hsq.
  transitivity (cmul Sc (cmul Sc nrm (cdiv Sc (c1 Sc) nrm))
                        (cmul Sc nrm (cdiv Sc (c1 Sc) nrm))); [ring|].
  rewrite (law_inv HLaws Hnrm). ring.
Qed.
End Normalize.

(** ** The Gaussian rationals obey the laws of exact arithmetic *)

Lemma Qc_sum_squares (a b : Qc) :
  (a * a + b * b)%Qc = 0%Qc -> a = 0%Qc /\ b = 0%Qc.
Proof.
  intros H.
  assert (HQ : (this (a * a + b * b)%Qc == 0)%Q) by (now rewrite H).
  unfold Qcplus, Qcmult in HQ; cbn [this Q2Qc] in HQ.
  rewrite !Qred_correct in HQ.
  set (x := this a) in *. set (y := this b) in *.
  assert (Hx : (x == 0)%Q).
  { destruct (Qeq_dec x 0) as [E|E]; [exact E|exfalso].
    assert (0 < x * x)%Q by (destruct (Q_dec x 0) as [[L|G]|Z]; [nra|nra|contradiction]).
    assert (0 <= y * y)%Q by nra. nra. }
  assert (Hy : (y == 0)%Q).
  { destruct (Qeq_dec y 0) as [E|E]; [exact E|exfalso].
    assert (0 < y * y)%Q by (destruct (Q_dec y 0) as [[L|G]|Z]; [nra|nra|contradiction]).
    assert (0 <= x * x)%Q by nra. nra. }
  split; apply Qc_is_canon; assumption.
Qed.

Lemma gnorm2_nonzero (x : gq) : x <> gre 0%Qc -> gnorm2 x <> 0%Qc.
Proof.
  intros Hx E. apply Hx. destruct x as [a b].
  unfold gnorm2 in E; cbn [fst snd] in E.
  apply Qc_sum_squares in E as [-> ->]. reflexivity.
Qed.

Lemma QG_laws : scalar_laws QG.
Proof.
  constructor.
  - constructor; cbn; intros;
      repeat match goal with x : gq |- _ => destruct x end;
      unfold gadd, gmul, gsub, gopp, gre; cbn [fst snd]; f_equal; ring.
  - intros [a1 a2] [b1 b2]. cbn. unfold gdiv, gmul, gre; cbn [fst snd].
    unfold Qcdiv. f_equal; ring.
  - intros b Hb. pose proof (gnorm2_nonzero Hb) as Hn. destruct b as [b1 b2].
    cbn. unfold gdiv, gmul, gre, gnorm2 in *; cbn [fst snd] in *.
    f_equal; field; assumption.
  - intros [a1 a2] [b1 b2]. cbn. unfold gdiv, gconj, gnorm2; cbn [fst snd].
    replace (b1 * b1 + - b2 * - b2)%Qc with (b1 * b1 + b2 * b2)%Qc by ring.
    unfold Qcdiv. f_equal; ring.
  - intros [a1 a2]. cbn. unfold gconj; cbn [fst snd]. f_equal; ring.
Qed.

(** ** Counting the retained singular values *)

Lemma count_gt_none (Sc : scalars) (s : tensor (R Sc)) (eps : R Sc) :
  (forall x, In x (data s) -> rgtb Sc x eps = false) -> count_gt Sc s eps = 0.
Proof.
  unfold count_gt. induction (data s) as [|x l IH]; intros H; [reflexivity|].
  cbn [filter]. rewrite (H x) by (now left). apply IH.
  intros y Hy. apply H. now right.
Qed.

(** When the elements satisfying [f] form a prefix, they are the first
    [length (filter f l)] ones. *)
Lemma prefix_filter (A : Type) (f : A -> bool) (d : A) (l : list A) :
  (forall i j, i <= j -> j < length l ->
     f (nth j l d) = true -> f (nth i l d) = true) ->
  forall i, i < length l -> f (nth i l d) = (i <? length (filter f l)).
Proof.
  induction l as [|x l IH]; intros H i Hi; [cbn in Hi; lia|].
  cbn [filter]. destruct (f x) eqn:Ex.
  - destruct i as [|i]; [exact Ex|]. cbn [nth length].
    rewrite IH; [reflexivity| |cbn in Hi; lia].
    intros a b Hab Hb Hfb. apply (H (S a) (S b)); [lia|cbn; lia|exact Hfb].
  - assert (Hall : forall j, j < length (x :: l) -> f (nth j (x :: l) d) = false).
    { intros j Hj. destruct (f (nth j (x :: l) d)) eqn:Ej; [|reflexivity].
      specialize (H 0 j (Nat.le_0_l j) Hj Ej). cbn in H. congruence. }
    assert (Hnil : filter f l = []).
    { clear -Hall. assert (G : forall y, In y l -> f y = false).
      { intros y Hy. destruct (In_nth l y d Hy) as (k & Hk & <-).
        apply (Hall (S k)). cbn. lia. }
      clear Hall. induction l as [|y l IHl]; [reflexivity|].
      cbn [filter]. rewrite (G y) by (now left). apply IHl.
      intros z Hz. apply G. now right. }
    rewrite Hnil, Hall by assumption. cbn [length].
    symmetry. apply Nat.ltb_ge. lia.
Qed.

Lemma get_vector (A : Type) (d : A) (s : tensor A) (p i : nat) :
  shape s = [p] -> i < p -> get d s [i] = nth i (data s) d.
Proof.
  intros Hs Hi. unfold get. rewrite Hs. cbn [in_bounds ravel numel fold_right].
  destruct (Nat.ltb_spec i p); [|lia]. cbn [andb]. f_equal. lia.
Qed.

Lemma get_tmap (A B : Type) (f : A -> B) (d : A) (d' : B) (t : tensor A) idx :
  wf t -> in_bounds (shape t) idx = true ->
  get d' (tmap f t) idx = f (get d t idx).
Proof.
  intros W Hb. unfold get, tmap; cbn [shape data]. rewrite Hb.
  pose proof (ravel_lt _ _ Hb) as Hlt. unfold wf in W.
  rewrite (nth_indep _ d' (f d)) by (rewrite length_map; lia).
  apply map_nth.
Qed.

(** ** [pinv] and [solve_regression] *)

Section PinvRegression.

Variable Sc : scalars.
Variable B : backend Sc.

Lemma pinv_no_retained (X : tensor (C Sc)) (eps : R Sc)
    (s : tensor (R Sc)) (u v : tensor (C Sc)) (a b p : nat) :
  svd B X = Ok (s, u, v) ->
  shape s = [p] -> shape u = [a; p] -> shape v = [b; p] ->
  count_gt Sc s eps = 0 ->
  pinv B X eps = Ok (mat b a (fun _ _ => c0 Sc)).
Proof.
  intros E Hs Hu Hv Hc. unfold pinv. rewrite E. cbn [bind]. rewrite Hc.
  rewrite (slice_cols (c0 Sc) u Hu (Nat.le_0_l p)).
  rewrite (slice_cols (c0 Sc) v Hv (Nat.le_0_l p)).
  rewrite (slice_prefix (r0 Sc) s Hs (Nat.le_0_l p)). cbn [bind].
  rewrite !tmap_vec.
  rewrite (binop_cols Sc _ _ _ (shape_mat _ _ _) (shape_vec _ _)). cbn [bind].
  rewrite (adjoint_mat Sc _ (shape_mat _ _ _)). cbn [bind].
  rewrite (matmul_mat Sc _ _ (shape_mat _ _ _) (shape_mat _ _ _)).
  reflexivity.
Qed.

Lemma flatten_tail_ok (X : tensor (C Sc)) (n : nat) (rest : list nat) :
  shape X = n :: rest -> n <> 0 ->
  flatten_tail Sc X = Ok (mkT [n; numel rest] (data X)).
Proof.
  intros Hs Hn. unfold flatten_tail, tf_reshape, infer_dims. rewrite Hs.
  cbn [existsb filter map length].
  destruct (Z.ltb_spec (Z.of_nat n) (-1)); [lia|].
  change (-1 <? -1)%Z with false. cbn [orb].
  destruct (Z.eqb_spec (Z.of_nat n) (-1)); [lia|].
  change (-1 =? -1)%Z with true. cbn [negb filter map length numel fold_right].
  rewrite Nat2Z.id, Nat.mul_1_r.
  destruct (Nat.eqb_spec n 0); [contradiction|]. cbn [bind].
  fold (numel rest).
  rewrite (Nat.mul_comm n (numel rest)), Nat.div_mul by assumption.
  cbn [numel fold_right].
  replace (n * (numel rest * 1)) with (numel rest * n) by lia.
  now rewrite Nat.eqb_refl.
Qed.

Hypothesis HL : scalar_laws Sc.
Add Ring scalar_ring2 : (law_ring HL).

(** Scaling the columns of [V] by [d] is the product [V . diag(d)]. *)
Lemma scale_cols_diag (V d : tensor (C Sc)) (q r : nat) :
  shape V = [q; r] -> shape d = [r] ->
  tf_binop (c0 Sc) (c0 Sc) (cmul Sc) V d = tf_matmul Sc V (diag Sc d).
Proof.
  intros HV Hd. rewrite (binop_cols Sc _ _ _ HV Hd).
  unfold diag. rewrite Hd. cbn [nth].
  rewrite (matmul_mat Sc _ _ HV (shape_mat _ _ _)).
  apply f_equal, mat_ext. intros i j Hi Hj.
  rewrite (csum_ext Sc _ (fun l => cmul Sc (get (c0 Sc) V [i; l])
             (if l =? j then get (c0 Sc) d [l] else c0 Sc)))
    by (intros l Hl; now rewrite get_mat by assumption).
  now rewrite (csum_delta HL) by assumption.
Qed.

(** On a single matrix [pinv] is the truncated pseudoinverse of the
    specification. *)
Lemma pinv_matrix_is_pseudoinverse (X : tensor (C Sc)) (eps : R Sc) (a b : nat) :
  svd_shapes B X a b -> pinv B X eps = pseudoinverse B X eps.
Proof.
  intros Hsvd. unfold pinv, pseudoinverse, truncated_factors.
  destruct (svd B X) as [[[s u] v]|e] eqn:E; cbn [bind]; [|reflexivity].
  destruct (Hsvd s u v E) as (p & Hs & Ws & Hu & Hv).
  assert (Hr : count_gt Sc s eps <= p).
  { pose proof (count_gt_le Sc s eps) as H. unfold wf in Ws.
    rewrite Ws, Hs in H. cbn in H. lia. }
  rewrite (slice_prefix (r0 Sc) s Hs Hr).
  rewrite (slice_cols (c0 Sc) u Hu Hr), (slice_cols (c0 Sc) v Hv Hr).
  cbn [bind].
  set (sig := vec (count_gt Sc s eps) (fun i => get (r0 Sc) s [i])).
  fold (recip Sc sig).
  assert (Hd : shape (recip Sc sig) = [count_gt Sc s eps]) by reflexivity.
  now rewrite (scale_cols_diag _ _ (shape_mat _ _ _) Hd).
Qed.

Lemma regression_weights_by_value (s : tensor (R Sc)) (p : nat) :
  shape s = [p] -> wf s -> prefix_above Sc s (rlit Sc 1e-8%Q) ->
  regression_weights Sc s = Ok (tmap (regression_weight Sc) s).
Proof.
  intros Hs Ws Hpre. unfold regression_weights.
  set (tol := rlit Sc 1e-8%Q). set (ind := count_gt Sc s tol).
  assert (Hp : length (data s) = p)
    by (unfold wf in Ws; rewrite Ws, Hs; cbn; lia).
  assert (Hind : ind <= p)
    by (rewrite <- Hp; apply count_gt_le).
  rewrite (slice_prefix (r0 Sc) s Hs Hind), (slice_suffix (r0 Sc) s Hs Hind).
  cbn [bind]. rewrite tmap_vec.
  unfold tf_concat, vec. rewrite !shape_tabulate.
  cbn [length nth set_nth]. change (0 <? 1) with true. cbn [negb shape_eqb].
  rewrite Nat.eqb_refl. cbn [andb bind].
  rewrite tmap_tabulate.
  replace (ind + (p - ind)) with p by lia.
  apply f_equal. apply (tensor_ext (c0 Sc)).
  - apply wf_tabulate.
  - unfold wf, tmap; cbn [data shape]. now rewrite length_map.
  - rewrite shape_tabulate. unfold tmap; cbn [shape]. now rewrite Hs.
  - rewrite shape_tabulate. intros idx Hb.
    destruct (in_bounds_1 _ _ Hb) as (i & -> & Hi).
    rewrite get_tabulate by exact Hb. cbn [nth].
    assert (Hv : rgtb Sc (nth i (data s) (r0 Sc)) tol = (i <? ind)).
    { apply (prefix_filter (fun x => rgtb Sc x tol)); [exact Hpre|lia]. }
    rewrite (@get_tmap _ _ _ (r0 Sc) (c0 Sc) s [i] Ws) by (now rewrite Hs).
    rewrite (get_vector (r0 Sc) s Hs Hi).
    unfold regression_weight. fold tol. rewrite Hv.
    destruct (Nat.ltb_spec i ind) as [Hlt|Hge].
    + rewrite get_tabulate by bounds. cbn [nth].
      now rewrite (get_vector (r0 Sc) s Hs Hi).
    + rewrite get_tabulate by bounds. cbn [nth set_nth].
      replace (i - ind + ind) with i by lia.
      now rewrite (get_vector (r0 Sc) s Hs Hi).
Qed.

End PinvRegression.

(** * The claims *)


(** C2: for T of shape (batch, L, feat) and 1 <= K <= L, [hankel(T, K)] has
    shape (batch, L-K+1, K, feat) and its element [b, i, k, :] is
    T[b, i+k, :]. *)
Theorem hankel_windows (A : Type) (dflt : A) (T : tensor A)
    (bs L feat : nat) (K : Z) :
  shape T = [bs; L; feat] ->
  (1 <= K <= Z.of_nat L)%Z ->
  exists t, hankel dflt T K = Ok t /\
    shape t = [bs; L - Z.to_nat K + 1; Z.to_nat K; feat] /\
    forall b i k f,
      b < bs -> i < L - Z.to_nat K + 1 -> k < Z.to_nat K -> f < feat ->
      get dflt t [b; i; k; f] = get dflt T [b; i + k; f].
Proof.
  intros Hsh HK. rewrite (tensor_eta T), Hsh.
  assert (EK : K = Z.of_nat (Z.to_nat K)) by lia.
  destruct (@hankel_spec A dflt bs L feat (Z.to_nat K) (data T)) as (t & Ht & Hs & Hg);
    [lia|].
  rewrite <- EK in Ht. exists t. repeat split; assumption.
Qed.

(** C3: the design matrices X and Y of [dmd] both have shape
    (K.m^2, batch.(n-K)); column b.(n-K)+i of X stacks the time steps
    i .. i+K-1 of trajectory b and the same column of Y stacks the steps
    i+1 .. i+K of that same trajectory: Y is X advanced by one step, and no
    column mixes two trajectories. *)
Theorem dmd_design_columns (Sc : scalars) (trajectories : tensor (C Sc))
    (bs n m : nat) (K : Z) :
  shape trajectories = [bs; n; m; m] ->
  (1 <= K <= Z.of_nat n - 1)%Z ->
  exists X Y, dmd_design Sc trajectories K = Ok (X, Y) /\
    shape X = [Z.to_nat K * (m * m); bs * (n - Z.to_nat K)] /\
    shape Y = [Z.to_nat K * (m * m); bs * (n - Z.to_nat K)] /\
    forall b i k r c,
      b < bs -> i < n - Z.to_nat K -> k < Z.to_nat K -> r < m -> c < m ->
      get (c0 Sc) X [k * (m * m) + r * m + c; b * (n - Z.to_nat K) + i]
        = get (c0 Sc) trajectories [b; i + k; r; c] /\
      get (c0 Sc) Y [k * (m * m) + r * m + c; b * (n - Z.to_nat K) + i]
        = get (c0 Sc) trajectories [b; i + 1 + k; r; c].
Proof.
  intros Hsh HK.
  assert (EK : K = Z.of_nat (Z.to_nat K)) by lia.
  destruct (@dmd_design_spec Sc bs n m (Z.to_nat K) trajectories Hsh)
    as (X & Y & HD & HX & HY & Hg); [lia|lia|].
  rewrite <- EK in HD. exists X, Y. repeat split; try assumption; now apply Hg.
Qed.

(** C4: when [dmd] gets through its linear-algebra stage with modes whose
    pairing sum_f conj(L[f,j]).R[f,j] is non-zero (and its square root is
    exact), the returned modes satisfy sum_f conj(L[f,j]).R[f,j] = 1:
    column j of R is divided by norm_j and column j of L by conj(norm_j). *)
Theorem dmd_modes_biorthogonal (Sc : scalars) (B : backend Sc)
    (trajectories : tensor (C Sc)) (K : Z) (eps : R Sc)
    (X Y lam R0 L0 : tensor (C Sc)) (F r : nat) :
  scalar_laws Sc ->
  dmd_design Sc trajectories K = Ok (X, Y) ->
  dmd_modes B X Y eps = Ok (lam, R0, L0) ->
  shape R0 = [F; r] -> shape L0 = [F; r] ->
  (forall j, j < r ->
     pairing Sc F L0 R0 j <> c0 Sc /\
     cmul Sc (csqrt Sc (pairing Sc F L0 R0 j)) (csqrt Sc (pairing Sc F L0 R0 j))
       = pairing Sc F L0 R0 j) ->
  exists Rn Ln,
    dmd B trajectories K eps = Ok (lam, Rn, Ln) /\
    shape Rn = [F; r] /\ shape Ln = [F; r] /\
    forall j, j < r -> pairing Sc F Ln Rn j = c1 Sc.
Proof.
  intros HL HD HM HR HL0 Hn.
  destruct (@dmd_normalize_biorthogonal Sc HL R0 L0 F r HR HL0 Hn)
    as (Rn & Ln & HN & HsR & HsL & Hp).
  exists Rn, Ln. split; [|auto].
  unfold dmd. rewrite HD. cbn [bind]. rewrite HM. cbn [bind].
  rewrite HN. reflexivity.
Qed.


(** C6 (amended): [dmd] has no zero-norm test.  Whenever its
    linear-algebra stage returns (features x r) matrices R and L, [dmd]
    returns R with column j divided by norm_j = sqrt(sum_f conj(L[f,j]).R[f,j])
    and L with column j divided by conj(norm_j), by plain division, whatever
    the value of norm_j, and raises nothing. *)
Theorem dmd_divides_through (Sc : scalars) (B : backend Sc)
    (trajectories : tensor (C Sc)) (K : Z) (eps : R Sc)
    (X Y lam R0 L0 : tensor (C Sc)) (F r : nat) :
  dmd_design Sc trajectories K = Ok (X, Y) ->
  dmd_modes B X Y eps = Ok (lam, R0, L0) ->
  shape R0 = [F; r] -> shape L0 = [F; r] ->
  dmd B trajectories K eps =
  Ok (lam,
      mat F r (fun f j => cdiv Sc (get (c0 Sc) R0 [f; j])
                            (csqrt Sc (pairing Sc F L0 R0 j))),
      mat F r (fun f j => cdiv Sc (get (c0 Sc) L0 [f; j])
                            (cconj Sc (csqrt Sc (pairing Sc F L0 R0 j))))).
Proof.
  intros HD HM HR HL0. unfold dmd.
  rewrite HD. cbn [bind]. rewrite HM. cbn [bind].
  now rewrite (dmd_normalize_value Sc _ _ HR HL0).
Qed.

(** C7 (amended): [hankel] has no range check on K of its own.  K = 0 is
    accepted and gives L+1 empty windows, a tensor of shape
    (batch, L+1, 0, feat); a negative K is refused when the shape invariant
    of the loop is built. *)
Theorem hankel_depth_zero (A : Type) (dflt : A) (T : tensor A)
    (bs L feat : nat) :
  shape T = [bs; L; feat] ->
  (exists t, hankel dflt T 0 = Ok t /\ shape t = [bs; L + 1; 0; feat]) /\
  (forall K, (K < 0)%Z ->
     hankel dflt T K = Err "TensorShape: dimension must be >= 0").
Proof.
  intros Hsh. split.
  - rewrite (tensor_eta T), Hsh.
    destruct (@hankel_spec A dflt bs L feat 0 (data T)) as (t & Ht & Hs & _);
      [lia|].
    exists t. split; [exact Ht|]. rewrite Hs. now rewrite Nat.sub_0_r.
  - intros K HK. unfold hankel. rewrite Hsh.
    rewrite slice_axis_ok by (rewrite Hsh; cbn [length]; lia). cbn [bind].
    destruct (Z.ltb_spec K 0); [reflexivity|lia].
Qed.

(** C8: when every singular value of the (a x b) matrix X is <= eps, the
    retained rank is 0, the reciprocal 1/sigma is taken over the empty
    vector, and [pinv(X, eps)] is the (b x a) zero matrix. *)
Theorem pinv_rank_zero (Sc : scalars) (B : backend Sc) (X : tensor (C Sc))
    (eps : R Sc) (s : tensor (R Sc)) (u v : tensor (C Sc)) (a b p : nat) :
  shape X = [a; b] ->
  svd B X = Ok (s, u, v) ->
  shape s = [p] -> shape u = [a; p] -> shape v = [b; p] ->
  (forall x, In x (data s) -> rgtb Sc x eps = false) ->
  count_gt Sc s eps = 0 /\
  slice_axis (r0 Sc) 0 None (zint (count_gt Sc s eps)) s = Ok (mkT [0] []) /\
  pinv B X eps = Ok (mat b a (fun _ _ => c0 Sc)).
Proof.
  intros _ E Hs Hu Hv Hall.
  pose proof (count_gt_none Sc s eps Hall) as Hc.
  split; [exact Hc|]. split.
  - rewrite Hc. now rewrite (slice_prefix (r0 Sc) s Hs (Nat.le_0_l p)).
  - eapply pinv_no_retained; eauto.
Qed.

(** C10: [solve_regression] uses the fixed tolerance 1e-8 and truncates
    nothing: it returns Y_resh . ((V . diag(w)) . U^H) with w_i = 1/sigma_i
    when sigma_i > 1e-8 and w_i = sigma_i itself otherwise.  (Exact
    arithmetic; singular values in the order the backend returns them, the
    ones above the tolerance first.) *)
Theorem solve_regression_weights (Sc : scalars) (B : backend Sc)
    (X Y : tensor (C Sc)) :
  scalar_laws Sc ->
  (forall X_resh s u v,
     flatten_tail Sc X = Ok X_resh -> svd B X_resh = Ok (s, u, v) ->
     exists q p, shape s = [p] /\ wf s /\ shape v = [q; p] /\
                 prefix_above Sc s (rlit Sc 1e-8%Q)) ->
  solve_regression B X Y = regression_spec B X Y.
Proof.
  intros HL Hsvd. unfold solve_regression, regression_spec.
  destruct (flatten_tail Sc X) as [X_resh|e] eqn:EX; cbn [bind]; [|reflexivity].
  destruct (flatten_tail Sc Y) as [Y_resh|e] eqn:EY; cbn [bind]; [|reflexivity].
  destruct (svd B X_resh) as [[[s u] v]|e] eqn:ES; cbn [bind]; [|reflexivity].
  destruct (Hsvd X_resh s u v eq_refl ES) as (q & p & Hs & Ws & Hv & Hpre).
  erewrite regression_weights_by_value by eauto. cbn [bind].
  assert (Hw : shape (tmap (regression_weight Sc) s) = [p]) by exact Hs.
  now erewrite scale_cols_diag by eauto.
Qed.

(** * Concrete runs *)

Lemma gq_eqb_eq (x y : gq) : gq_eqb x y = true -> x = y.
Proof.
  destruct x as [a b], y as [c d]. unfold gq_eqb; cbn [fst snd].
  intros H. apply andb_prop in H as [H1 H2].
  apply Qeq_bool_iff in H1, H2.
  f_equal; now apply Qc_is_canon.
Qed.


Lemma shape_eqb_eq (sh1 sh2 : list nat) : shape_eqb sh1 sh2 = true -> sh1 = sh2.
Proof.
  revert sh2; induction sh1 as [|a sh1 IH]; intros [|b sh2]; cbn; try discriminate; auto.
  intros H. apply andb_prop in H as [Hab H]. apply Nat.eqb_eq in Hab.
  f_equal; auto.
Qed.

Lemma list_eqb_eq (l1 l2 : list gq) : list_eqb l1 l2 = true -> l1 = l2.
Proof.
  revert l2; induction l1 as [|x l1 IH]; intros [|y l2]; cbn; try discriminate; auto.
  intros H. apply andb_prop in H as [Hxy H]. apply gq_eqb_eq in Hxy.
  f_equal; auto.
Qed.

Lemma same_tensor_eq (r1 r2 : result (tensor gq)) :
  same_tensor r1 r2 = true -> r1 = r2.
Proof.
  destruct r1 as [[sh1 d1]|], r2 as [[sh2 d2]|]; cbn; try discriminate.
  unfold tensor_eqb; cbn [shape data]. intros H.
  apply andb_prop in H as [Hs Hd].
  apply shape_eqb_eq in Hs. apply list_eqb_eq in Hd. now subst.
Qed.

Ltac gq_compute := apply gq_eqb_eq; vm_compute; reflexivity.

Lemma gq_is_zero_eq (x : gq) : gq_is_zero x = true -> x = gre 0%Qc.
Proof. intros H. apply gq_eqb_eq. exact H. Qed.

(** The reference backend returns genuine factorizations on the inputs
    used below: X = U.diag(s).V^H. *)
Lemma reference_svd_factorizes :
  is_svd_of (fst two_modes_design)
    (value (mkT [] [], no_tensor, no_tensor)
       (svd checked_backend (fst two_modes_design))) = true /\
  is_svd_of (fst defective_design)
    (value (mkT [] [], no_tensor, no_tensor)
       (svd checked_backend (fst defective_design))) = true /\
  is_svd_of regression_X
    (value (mkT [] [], no_tensor, no_tensor)
       (svd checked_backend regression_X)) = true.
Proof. repeat split; vm_compute; reflexivity. Qed.


Lemma hankel_windows_witness :
  exists t, hankel 0%Z two_sequences 2 = Ok t /\
    shape t = [2; 4 - Z.to_nat 2 + 1; Z.to_nat 2; 1] /\
    forall b i k f,
      b < 2 -> i < 4 - Z.to_nat 2 + 1 -> k < Z.to_nat 2 -> f < 1 ->
      get 0%Z t [b; i; k; f] = get 0%Z two_sequences [b; i + k; f].
Proof.
  apply (@hankel_windows Z 0%Z two_sequences 2 4 1 2%Z).
  - reflexivity.
  - lia.
Defined.

Lemma dmd_design_columns_witness :
  exists X Y, dmd_design QG traj_zero_mode 2 = Ok (X, Y) /\
    shape X = [Z.to_nat 2 * (1 * 1); 2 * (3 - Z.to_nat 2)] /\
    shape Y = [Z.to_nat 2 * (1 * 1); 2 * (3 - Z.to_nat 2)] /\
    forall b i k r c,
      b < 2 -> i < 3 - Z.to_nat 2 -> k < Z.to_nat 2 -> r < 1 -> c < 1 ->
      get (c0 QG) X [k * (1 * 1) + r * 1 + c; b * (3 - Z.to_nat 2) + i]
        = get (c0 QG) traj_zero_mode [b; i + k; r; c] /\
      get (c0 QG) Y [k * (1 * 1) + r * 1 + c; b * (3 - Z.to_nat 2) + i]
        = get (c0 QG) traj_zero_mode [b; i + 1 + k; r; c].
Proof.
  apply (@dmd_design_columns QG traj_zero_mode 2 3 1 2%Z).
  - reflexivity.
  - lia.
Defined.

Lemma dmd_modes_biorthogonal_witness :
  exists Rn Ln,
    dmd checked_backend traj_two_modes 1 eps5
      = Ok (fst (fst two_modes_modes), Rn, Ln) /\
    shape Rn = [4; 2] /\ shape Ln = [4; 2] /\
    forall j, j < 2 -> pairing QG 4 Ln Rn j = c1 QG.
Proof.
  apply (@dmd_modes_biorthogonal QG checked_backend traj_two_modes 1%Z eps5
           (fst two_modes_design) (snd two_modes_design)
           (fst (fst two_modes_modes)) (snd (fst two_modes_modes))
           (snd two_modes_modes) 4 2 QG_laws).
  - vm_compute. reflexivity.
  - vm_compute. reflexivity.
  - vm_compute. reflexivity.
  - vm_compute. reflexivity.
  - intros j Hj. destruct j as [|[|j]]; [| |lia].
    + split.
      * intros E. apply (f_equal gq_is_zero) in E. vm_compute in E. discriminate.
      * gq_compute.
    + split.
      * intros E. apply (f_equal gq_is_zero) in E. vm_compute in E. discriminate.
      * gq_compute.
Defined.



Lemma dmd_divides_through_witness :
  dmd checked_backend traj_zero_mode 2 eps5 =
  Ok (fst (fst zero_mode_modes),
      mat 2 2 (fun f j =>
        cdiv QG (get (c0 QG) (snd (fst zero_mode_modes)) [f; j])
          (csqrt QG (pairing QG 2 (snd zero_mode_modes)
                       (snd (fst zero_mode_modes)) j))),
      mat 2 2 (fun f j =>
        cdiv QG (get (c0 QG) (snd zero_mode_modes) [f; j])
          (cconj QG (csqrt QG (pairing QG 2 (snd zero_mode_modes)
                                 (snd (fst zero_mode_modes)) j))))).
Proof.
  apply (@dmd_divides_through QG checked_backend traj_zero_mode 2%Z eps5
           (fst zero_mode_design) (snd zero_mode_design)
           (fst (fst zero_mode_modes)) (snd (fst zero_mode_modes))
           (snd zero_mode_modes) 2 2).
  - vm_compute. reflexivity.
  - vm_compute. reflexivity.
  - vm_compute. reflexivity.
  - vm_compute. reflexivity.
Defined.

(** On the two trajectories (1, 0, 0) and (0, 1, 1) with K = 2 the reduced
    operator [[0, 1], [0, 1]] has the eigenvalues 0 and 1 and an invertible
    matrix of eigenvectors.  The first mode has pairing 0, hence norm 0;
    [dmd] divides by it and returns a result. *)
Lemma zero_norm_goes_undetected :
  dmd_design QG traj_zero_mode 2 = Ok zero_mode_design /\
  dmd_reduced checked_backend (fst zero_mode_design) (snd zero_mode_design) eps5
    = Ok zero_mode_reduced /\
  eig checked_backend (snd zero_mode_reduced) = Ok zero_mode_eig /\
  tf_matmul QG (snd zero_mode_reduced) (snd zero_mode_eig)
    = tf_matmul QG (snd zero_mode_eig) (diag QG (fst zero_mode_eig)) /\
  invertible QG (snd zero_mode_eig) /\
  dmd_modes checked_backend (fst zero_mode_design) (snd zero_mode_design) eps5
    = Ok zero_mode_modes /\
  pairing QG 2 (snd zero_mode_modes) (snd (fst zero_mode_modes)) 0 = c0 QG /\
  csqrt QG (c0 QG) = c0 QG /\
  is_ok (dmd checked_backend traj_zero_mode 2 eps5) = true.
Proof.
  split; [vm_compute; reflexivity|].
  split; [vm_compute; reflexivity|].
  split; [vm_compute; reflexivity|].
  split; [apply same_tensor_eq; vm_compute; reflexivity|].
  split.
  { exists 2, (value no_tensor (inv checked_backend (snd zero_mode_eig))).
    split; [vm_compute; reflexivity|]. split; [vm_compute; reflexivity|].
    apply same_tensor_eq. vm_compute. reflexivity. }
  split; [vm_compute; reflexivity|].
  split; [gq_compute|].
  split; [gq_compute|].
  vm_compute; reflexivity.
Qed.

Lemma hankel_depth_zero_witness :
  (exists t, hankel 0%Z two_sequences 0 = Ok t /\ shape t = [2; 4 + 1; 0; 1]) /\
  (forall K, (K < 0)%Z ->
     hankel 0%Z two_sequences K = Err "TensorShape: dimension must be >= 0").
Proof.
  apply (@hankel_depth_zero Z 0%Z two_sequences 2 4 1). reflexivity.
Defined.

(** K = 0 is below the documented range and [hankel] returns a tensor. *)
Lemma hankel_accepts_depth_zero :
  hankel 0%Z two_sequences 0 = Ok (mkT [2; 5; 0; 1] []).
Proof. vm_compute. reflexivity. Qed.

Lemma pinv_rank_zero_witness :
  count_gt QG (fst (fst zero_matrix_svd)) eps5 = 0 /\
  slice_axis (r0 QG) 0 None
    (zint (count_gt QG (fst (fst zero_matrix_svd)) eps5))
    (fst (fst zero_matrix_svd)) = Ok (mkT [0] []) /\
  pinv checked_backend zero_matrix eps5 = Ok (mat 3 2 (fun _ _ => c0 QG)).
Proof.
  apply (@pinv_rank_zero QG checked_backend zero_matrix eps5
           (fst (fst zero_matrix_svd)) (snd (fst zero_matrix_svd))
           (snd zero_matrix_svd) 2 3 2).
  - reflexivity.
  - vm_compute. reflexivity.
  - vm_compute. reflexivity.
  - vm_compute. reflexivity.
  - vm_compute. reflexivity.
  - intros x Hx. vm_compute in Hx.
    destruct Hx as [<-|[<-|[]]]; vm_compute; reflexivity.
Defined.

(** C9 (defect): on a batch holding the single matrix diag(2, 0), whose
    pseudoinverse is the 2x2 matrix diag(1/2, 0), [pinv] slices the rows of
    the factors instead of their columns and returns a tensor of shape
    (1, 1, 1) where (1, 2, 2) is documented; on the same matrix without the
    batch axis it returns a 2x2 matrix. *)
Theorem pinv_batched_wrong_shape :
  shape batched_diag_2_0 = [1; 2; 2] /\
  (exists t, pinv checked_backend batched_diag_2_0 eps5 = Ok t /\
             shape t = [1; 1; 1]) /\
  (exists t, pinv checked_backend diag_2_0 eps5 = Ok t /\
             shape t = [2; 2] /\
             t = value no_tensor (pseudoinverse checked_backend diag_2_0 eps5)).
Proof.
  split; [reflexivity|]. split.
  - eexists. split; [vm_compute; reflexivity|reflexivity].
  - eexists. split; [vm_compute; reflexivity|]. split; [reflexivity|].
    apply (tensor_ext (gre 0%Qc)); reflexivity.
Qed.

Lemma solve_regression_weights_witness :
  solve_regression checked_backend regression_X regression_Y
  = regression_spec checked_backend regression_X regression_Y.
Proof.
  apply (@solve_regression_weights QG checked_backend regression_X regression_Y QG_laws).
  intros X_resh s u v HF HS. vm_compute in HF. injection HF as <-.
  vm_compute in HS. injection HS as <- <- <-.
  exists 3, 2. repeat split.
  intros i j Hij Hj Hgt. cbn [data length] in Hj.
  destruct j as [|[|j]]; [| |lia].
  - replace i with 0 by lia. exact Hgt.
  - vm_compute in Hgt. discriminate.
Defined.

